(** * Movie-Ratings-Analysis: the four aggregations of [movieAnalysis.py]

    The dashboard loads one table of rating observations and derives four
    summaries from it with pandas: [plot_genre_counts], [plot_5star_treemap],
    [plot_mean_rating_by_year] and [top_movies_table].  This development
    embeds the pandas operations those functions call, the functions
    themselves over an object store (pandas frames are heap objects that a
    caller shares by reference), and proves the properties the specification
    states about them.

    Conventions of the embedding:
    - a missing cell (NaN / None) is [None]; pandas drops missing keys in
      [value_counts] and [groupby], and skips missing values in [mean] and
      [count];
    - a rating cell holds a float64; it is modelled by its exact value, a
      rational ([Q]), and the arithmetic of [mean] is IEEE-754 binary64:
      every operation is the exact operation followed by [round64], rounding
      to nearest, ties to even (overflow to infinity is not modelled);
    - the order among rows with equal sort keys is not specified by pandas'
      default sort; the embedding fixes one (that of a stable sort) and no
      property below depends on it. *)

From Stdlib Require Import ZArith QArith Qreduction Qround Qpower.
From Stdlib Require Import List String Bool Lia.
From Stdlib Require Import Floats.PrimFloat Floats.SpecFloat Floats.FloatOps.
From Stdlib Require Import Sorting.Permutation Sorting.Sorted.
From stdpp Require Import base list sets strings sorting.

#[local] Set Warnings "-clear-no-such-hyp,-inexact-float".
Local Open Scope Z_scope.

(** ** Data model *)

(** One row of [data/movie_ratings.csv], restricted to the columns the
    dashboard reads. *)
Record rating_record := mkRow {
  title : option string;
  genres : option string;
  rating : option Q;
  year : option Z
}.

Definition table := list rating_record.

(** A row of [df["genres"].value_counts().reset_index()]. *)
Record GenreCount := mkGenreCount {
  genre : string;
  count : Z
}.

(** A row of [df.groupby("year")["rating"].mean().reset_index()]. *)
Record YearlyMeanRating := mkYearlyMean {
  ymr_year : Z;
  mean_rating : option Q
}.

(** A row of the [movie_stats] frame of [top_movies_table]. *)
Record MovieStat := mkMovieStat {
  ms_title : string;
  avg_rating : option Q;
  rating_count : Z
}.

(** ** The pandas operations used by the dashboard *)

Section Series.
Context {K : Type} `{EqDecision K}.

(** Distinct values in order of first appearance (the hash-table order of
    [value_counts] and of the group keys before they are sorted). *)
Fixpoint unique_from (seen s : list K) : list K :=
  match s with
  | [] => []
  | x :: s' =>
      if decide (x ∈ seen) then unique_from seen s'
      else x :: unique_from (x :: seen) s'
  end.

Definition unique (s : list K) : list K := unique_from [] s.

(** Number of cells of [s] holding [k]. *)
Definition occurrences (k : K) (s : list K) : Z :=
  Z.of_nat (length (List.filter (fun x => bool_decide (x = k)) s)).
End Series.

(** [dropna]: the present values of a column, in row order. *)
Definition dropna {A} (s : list (option A)) : list A := omap id s.

Section Sorting.
Context {A : Type} (le : A -> A -> bool).

Fixpoint insert_sorted (x : A) (l : list A) : list A :=
  match l with
  | [] => [x]
  | y :: l' => if le x y then x :: l else y :: insert_sorted x l'
  end.

(** [sort_values]: rows in the order of their keys.  pandas' default sort
    ([kind="quicksort"]) leaves the order of rows with equal keys
    unspecified; here the one that came first stays first. *)
Definition sort_values (l : list A) : list A := foldr insert_sorted [] l.
End Sorting.

(** [DataFrame.head(n)]: the first [n] rows, and for a negative [n] all rows
    but the last [-n]. *)
Definition head {A} (n : Z) (l : list A) : list A :=
  if 0 <=? n then firstn (Z.to_nat n) l
  else firstn (length l - Z.to_nat (- n))%nat l.

(** [Series.value_counts()] with its defaults [sort=True], [ascending=False],
    [dropna=True]: one row per distinct present value, most frequent first. *)
Definition count_ge (a b : GenreCount) : bool := count b <=? count a.

Definition value_counts (s : list (option string)) : list GenreCount :=
  let vals := dropna s in
  sort_values count_ge
    (map (fun k => mkGenreCount k (occurrences k vals)) (unique vals)).

(** [DataFrame.groupby(key)] with its defaults [sort=True], [dropna=True]:
    the distinct present keys in ascending order, each with its rows in
    table order. *)
Definition groupby {K} `{EqDecision K} (key : rating_record -> option K)
    (leb : K -> K -> bool) (df : table) : list (K * table) :=
  map (fun k => (k, List.filter (fun r => bool_decide (key r = Some k)) df))
      (sort_values leb (unique (dropna (map key df)))).

(** *** IEEE-754 binary64 arithmetic on exact values *)

Definition two_pow (e : Z) : Q := (2 ^ e)%Q.

(** [floor (log2 q)] for a positive [q]. *)
Definition Qlog2 (q : Q) : Z :=
  let k := Z.log2 (Qnum q) - Z.log2 (Zpos (Qden q)) in
  if Qle_bool (two_pow k) q then k else k - 1.

(** Nearest integer, ties to even. *)
Definition round_half_even (x : Q) : Z :=
  let f := Qfloor x in
  match (x - inject_Z f ?= 1 # 2)%Q with
  | Lt => f
  | Gt => f + 1
  | Eq => if Z.even f then f else f + 1
  end.

(** Exponent of the unit in the last place of a positive binary64 of the
    magnitude of [q]: 53 significant bits, subnormal below [2^-1022]. *)
Definition ulp_exponent (q : Q) : Z := Z.max (Qlog2 q - 52) (-1074).

(** Nearest multiple of [2^e], ties to even. *)
Definition round_to (e : Z) (q : Q) : Q :=
  (inject_Z (round_half_even (q / two_pow e)) * two_pow e)%Q.

(** The binary64 nearest to [q] (in lowest terms). *)
Definition round64 (q : Q) : Q :=
  let q := Qred q in
  match (q ?= 0)%Q with
  | Eq => 0%Q
  | Gt => Qred (round_to (ulp_exponent q) q)
  | Lt => Qred (- round_to (ulp_exponent (- q)) (- q))
  end.

Definition fadd (x y : Q) : Q := round64 (x + y).
Definition fsub (x y : Q) : Q := round64 (x - y).
Definition fdiv (x y : Q) : Q := round64 (x / y).

(** One step of the running sum of pandas' group kernel ([group_mean]),
    which adds with Kahan compensation: the state is the sum so far and the
    compensation. *)
Definition kahan_step (st : Q * Q) (val : Q) : Q * Q :=
  let y := fsub val (snd st) in
  let t := fadd (fst st) y in
  (t, fsub (fsub t (fst st)) y).

(** The float64 sum of the values, in row order. *)
Definition float_sum (v : list Q) : Q :=
  fst (fold_left kahan_step v (0%Q, 0%Q)).

(** The float64 sum divided (in float64) by the number of values; NaN
    ([None]) for no value. *)
Definition float_mean (v : list Q) : option Q :=
  match v with
  | [] => None
  | _ => Some (fdiv (float_sum v) (inject_Z (Z.of_nat (length v))))
  end.

(** The exact value of a finite machine float, to compare [round64] with
    the hardware arithmetic. *)
Definition float_value (f : float) : option Q :=
  match Prim2SF f with
  | S754_zero _ => Some 0%Q
  | S754_finite s m e =>
      Some (Qred ((if s then -1 else 1) * inject_Z (Zpos m) * two_pow e))
  | _ => None
  end.

(** The ["mean"] aggregation: the float64 mean of the present values, NaN
    ([None]) when there is none. *)
Definition mean (s : list (option Q)) : option Q := float_mean (dropna s).

(** The ["count"] aggregation: the number of present values. *)
Definition count_valid {A} (s : list (option A)) : Z :=
  Z.of_nat (length (dropna s)).

(** [df["rating"] == 5]; a missing rating compares unequal. *)
Definition is_five_star (r : rating_record) : bool :=
  match rating r with
  | Some q => Qeq_bool q 5
  | None => false
  end.

(** Descending order on [avg_rating] as [sort_values(ascending=False)] has
    it: NaN goes last ([na_position="last"]). *)
Definition avg_ge (a b : MovieStat) : bool :=
  match avg_rating a, avg_rating b with
  | Some x, Some y => Qle_bool y x
  | Some _, None => true
  | None, Some _ => false
  | None, None => true
  end.

(** ** The four transforms as functions of the table *)

(** [plot_genre_counts], lines 24-25. *)
Definition genre_counts (df : table) : list GenreCount :=
  value_counts (map genres df).

(** [plot_5star_treemap], lines 56-60. *)
Definition top_ratings (df : table) : table := List.filter is_five_star df.

Definition five_star_genre_counts (df : table) : list GenreCount :=
  value_counts (map genres (top_ratings df)).

(** [plot_mean_rating_by_year], line 81. *)
Definition yearly_mean_rating (df : table) : list YearlyMeanRating :=
  map (fun g => mkYearlyMean (fst g) (mean (map rating (snd g))))
      (groupby year Z.leb df).

(** [top_movies_table], lines 99-111. *)
Definition movie_stats (df : table) : list MovieStat :=
  map (fun g => mkMovieStat (fst g) (mean (map rating (snd g)))
                            (count_valid (map rating (snd g))))
      (groupby title String.leb df).

Definition filtered_movies (df : table) (min_ratings : Z) : list MovieStat :=
  List.filter (fun s => min_ratings <=? rating_count s) (movie_stats df).

Definition top_movies (df : table) (min_ratings top_n : Z) : list MovieStat :=
  head top_n (sort_values avg_ge (filtered_movies df min_ratings)).

(** ** The source functions over the object store

    A pandas frame is an object; [df] is a reference that [main] passes to
    all four functions.  Each assignment of the source binds a name to a new
    frame (the pandas calls on its right-hand side copy, none works in
    place), so each allocates one cell; the one in-place update is
    [genre_counts.columns = [...]].  The plotting functions hand their
    summary frame to plotly; here they return the reference to that frame. *)

Inductive frame :=
| RatingsFrame (rows : table)
| CountsFrame (columns : list string) (rows : list GenreCount)
| YearlyFrame (rows : list YearlyMeanRating)
| StatsFrame (rows : list MovieStat).

Definition ref := nat.
Definition store := list frame.

(** Computations over the store; [None] is a raised exception. *)
Definition py (A : Type) : Type := store -> option (A * store).

#[global] Instance py_ret : MRet py := fun A x h => Some (x, h).
#[global] Instance py_bind : MBind py := fun A B f m h =>
  match m h with
  | Some (x, h') => f x h'
  | None => None
  end.

Definition new (f : frame) : py ref :=
  fun h => Some (length h, h ++ [f]).

Definition ratings_of (l : ref) : py table :=
  fun h => match h !! l with
           | Some (RatingsFrame t) => Some (t, h)
           | _ => None
           end.

Definition stats_of (l : ref) : py (list MovieStat) :=
  fun h => match h !! l with
           | Some (StatsFrame t) => Some (t, h)
           | _ => None
           end.

(** [frame.columns = names]: renames the columns of the object in place and
    raises when the number of names is not the number of columns. *)
Definition set_columns (l : ref) (names : list string) : py unit :=
  fun h => match h !! l with
           | Some (CountsFrame _ rows) =>
               if decide (length names = 2%nat)
               then Some (tt, <[l := CountsFrame names rows]> h)
               else None
           | _ => None
           end.

(** The column names of [value_counts().reset_index()] (pandas 2 names the
    counts column [count]); the assignment that follows it in the source
    sets the same two names. *)
Definition counts_columns : list string := ["genres"; "count"]%string.

Definition plot_genre_counts (df : ref) : py ref :=
  t ← ratings_of df;
  gc ← new (CountsFrame counts_columns (value_counts (map genres t)));
  set_columns gc ["genres"; "count"]%string;;
  mret gc.

Definition plot_5star_treemap (df : ref) : py ref :=
  t ← ratings_of df;
  top ← new (RatingsFrame (List.filter is_five_star t));
  tr ← ratings_of top;
  gc ← new (CountsFrame counts_columns (value_counts (map genres tr)));
  set_columns gc ["genres"; "count"]%string;;
  mret gc.

Definition plot_mean_rating_by_year (df : ref) : py ref :=
  t ← ratings_of df;
  new (YearlyFrame (yearly_mean_rating t)).

Definition top_movies_table (df : ref) (min_ratings top_n : Z) : py ref :=
  t ← ratings_of df;
  stats ← new (StatsFrame (movie_stats t));
  ms ← stats_of stats;
  filtered ← new (StatsFrame
                    (List.filter (fun s => min_ratings <=? rating_count s) ms));
  fm ← stats_of filtered;
  new (StatsFrame (head top_n (sort_values avg_ge fm))).

Definition scenario : table :=
  [ mkRow (Some "Toy Story") (Some "Animation") (Some 5%Q) (Some 1995);
    mkRow (Some "Toy Story") (Some "Animation") (Some 4%Q) (Some 1995);
    mkRow (Some "Heat") (Some "Action") (Some 3%Q) (Some 1995) ]%string.

(** ** Vocabulary of the specification

    The properties below are stated over the table itself: sums and counts
    of its rows, not the intermediate frames of the code. *)

Definition Zsum (l : list Z) : Z := foldr Z.add 0 l.

(** Number of rows of a table that satisfy a test. *)
Definition count_rows (p : rating_record → bool) (df : table) : Z :=
  Z.of_nat (length (List.filter p df)).

Definition has_genres (r : rating_record) : bool :=
  match genres r with Some _ => true | None => false end.

Definition has_rating (r : rating_record) : bool :=
  match rating r with Some _ => true | None => false end.

Definition in_genre (g : string) (r : rating_record) : bool :=
  bool_decide (genres r = Some g).

Definition in_year (y : Z) (r : rating_record) : bool :=
  bool_decide (year r = Some y).

Definition has_title (t : string) (r : rating_record) : bool :=
  bool_decide (title r = Some t).

(** The ratings of the rows that satisfy a test. *)
Definition ratings_where (p : rating_record → bool) (df : table) : list Q :=
  dropna (map rating (List.filter p df)).

(** The exact (unrounded) sum of a list of ratings. *)
Definition Qsum (l : list Q) : Q := foldr Qplus 0%Q l.

(** A value that a float64 holds exactly. *)
Definition is_float64 (q : Q) : bool := Qeq_bool (round64 q) q.

(** The exact sums of the first one, two, ... values after [acc]. *)
Fixpoint running_sums (acc : Q) (l : list Q) : list Q :=
  match l with
  | [] => []
  | x :: l' => (acc + x)%Q :: running_sums (acc + x)%Q l'
  end.

(** Ratings that float64 sums without rounding: every rating and every
    running sum is a float64 value. *)
Definition exactly_summable (l : list Q) : bool :=
  forallb is_float64 l && forallb is_float64 (running_sums 0%Q l).

(** A rating on the half-star scale: 0, 0.5, 1, ..., 5. *)
Definition half_star (x : Q) : Prop :=
  ∃ k : Z, 0 ≤ k ≤ 10 ∧ (x == k # 2)%Q.

(** The float64 nearest to 0.1, the value a cell read from the text [0.1]
    holds. *)
Definition tenth : Q := 3602879701896397 # 36028797018963968.

(** Three ratings of 0.1 for one year. *)
Definition tenths : table :=
  [ mkRow (Some "A") (Some "g") (Some tenth) (Some 2000);
    mkRow (Some "B") (Some "g") (Some tenth) (Some 2000);
    mkRow (Some "C") (Some "g") (Some tenth) (Some 2000) ]%string.

(** A title group of two rows, one of them without a rating. *)
Definition missing_rating_table : table :=
  [ mkRow (Some "A") (Some "g") (Some 5%Q) (Some 1995);
    mkRow (Some "A") (Some "g") None (Some 1995) ]%string.

(** The data-model invariant on the rating column. *)
Definition ratings_present (df : table) : Prop :=
  ∀ r, r ∈ df → has_rating r = true.

(** Non-increasing [avg_rating] between an earlier and a later row. *)
Definition avg_desc (a b : MovieStat) : Prop :=
  match avg_rating a, avg_rating b with
  | Some x, Some y => (y <= x)%Q
  | _, _ => False
  end.

(** Two calls in a row, as [main] could make them: the second runs in the
    store the first one left. *)
Definition twice (c : py ref) : py (ref * ref) :=
  a ← c; b ← c; mret (a, b).

(** A call returns normally, the table is still at [df] afterwards, and so
    is every object that existed before the call. *)
Definition leaves_table (c : py ref) (h : store) (df : ref) (t : table) : Prop :=
  ∃ out h',
    c h = Some (out, h') ∧
    h' !! df = Some (RatingsFrame t) ∧
    ∀ l o, h !! l = Some o → h' !! l = Some o.

(** Two calls in a row return frames holding the same value. *)
Definition repeatable (c : py ref) (h : store) : Prop :=
  ∃ l1 l2 h2 o,
    twice c h = Some ((l1, l2), h2) ∧ h2 !! l1 = Some o ∧ h2 !! l2 = Some o.

(** A call returns normally, and what it returns is the frame [o]. *)
Definition returns (c : py ref) (h : store) (o : frame) : Prop :=
  ∃ l h', c h = Some (l, h') ∧ h' !! l = Some o.

(** ** The dashboard's [main]

    [main] obtains [df] from [load_data()] (a cached read of the CSV file,
    not modelled: [df] is the reference it yields), calls the four functions
    on it in turn and hands each result to a streamlit widget.  The widgets
    do not touch the store; [main] is modelled by the frames it displays, in
    display order. *)

(** [frame.reset_index(drop=True)]: a new frame with the same rows under a
    fresh row index (row labels are not modelled). *)
Definition reset_index_drop (l : ref) : py ref :=
  ms ← stats_of l;
  new (StatsFrame ms).

Definition main (df : ref) : py (list ref) :=
  fig ← plot_genre_counts df;
  treemap_fig ← plot_5star_treemap df;
  rating_trend_fig ← plot_mean_rating_by_year df;
  top_50 ← top_movies_table df 50 5;
  top_50_movies ← reset_index_drop top_50;
  top_150 ← top_movies_table df 150 5;
  top_150_movies ← reset_index_drop top_150;
  mret [fig; treemap_fig; rating_trend_fig; top_50_movies; top_150_movies].

(** A row that [movie_stats] counts: it has a title and a rating. *)
Definition titled_rating (r : rating_record) : bool :=
  match title r with Some _ => has_rating r | None => false end.

(** Every frame of a list of references, read in a store. *)
Definition frames_at (h : store) (ls : list ref) : list (option frame) :=
  map (λ l, h !! l) ls.

(** ** The operations on small inputs *)

Example unique_first_appearance : unique [3; 1; 3; 2; 1] = [3; 1; 2].
Proof. reflexivity. Qed.

Example value_counts_drops_missing :
  value_counts [Some "b"; None; Some "a"; Some "a"]%string
  = [mkGenreCount "a" 2; mkGenreCount "b" 1].
Proof. reflexivity. Qed.

Example value_counts_tie :
  value_counts [Some "b"; Some "a"]%string
  = [mkGenreCount "b" 1; mkGenreCount "a" 1].
Proof. reflexivity. Qed.

Example head_negative : head (-1) [1; 2; 3] = [1; 2].
Proof. reflexivity. Qed.

Example mean_skips_missing : mean [Some 5%Q; None; Some 4%Q] = Some (9 # 2)%Q.
Proof. reflexivity. Qed.

Example mean_of_nothing : mean [None; None] = None.
Proof. reflexivity. Qed.

(** The mean is computed in float64: 4/3 is not a float64 value. *)
Example mean_rounds :
  mean [Some 1%Q; Some 1%Q; Some 2%Q]
  = Some (6004799503160661 # 4503599627370496)%Q.
Proof. vm_compute. reflexivity. Qed.

Example round64_tenth : round64 (1 # 10) = tenth.
Proof. vm_compute. reflexivity. Qed.

(** The operations agree with the machine's binary64 arithmetic. *)
Example fadd_fdiv_machine :
  float_value 0.1 = Some tenth ∧
  float_value (0.1 + 0.2) = Some (fadd tenth (round64 (2 # 10))) ∧
  float_value (0.3 - 0.1) = Some (fsub (round64 (3 # 10)) tenth) ∧
  float_value ((0.1 + 0.1 + 0.1) / 3)
  = Some (fdiv (fadd (fadd tenth tenth) tenth) 3) ∧
  float_value (4 / 3) = Some (fdiv 4 3) ∧
  float_value (-1 / 3) = Some (fdiv (-1) 3).
Proof. repeat split; vm_compute; reflexivity. Qed.

(** The compensated sum is not the plain left-to-right sum: for 0.1, 0.2,
    0.3 it is the float64 nearest to 0.6, and the mean is
    0.19999999999999998, where plain summation gives 0.6000000000000001
    and 0.20000000000000004. *)
Example mean_compensated :
  mean [Some tenth; Some (round64 (2 # 10)); Some (round64 (3 # 10))]
  = Some (7205759403792793 # 36028797018963968)%Q ∧
  fdiv (fadd (fadd tenth (round64 (2 # 10))) (round64 (3 # 10))) 3
  = (7205759403792795 # 36028797018963968)%Q.
Proof. split; vm_compute; reflexivity. Qed.

Example round64_tie_to_even :
  round64 (inject_Z (2 ^ 53 + 1)) = inject_Z (2 ^ 53) ∧
  round64 (inject_Z (2 ^ 53 + 3)) = inject_Z (2 ^ 53 + 4).
Proof. split; vm_compute; reflexivity. Qed.

Example round64_subnormal :
  round64 (3 * two_pow (-1075)) = Qred (2 * two_pow (-1074)).
Proof. vm_compute. reflexivity. Qed.

(** A missing rating is a row of its title group but not a counted rating. *)
Example count_skips_missing :
  top_movies [mkRow (Some "A") (Some "g") (Some 5%Q) (Some 1995);
              mkRow (Some "A") (Some "g") None (Some 1995)]%string 1 5
  = [mkMovieStat "A" (Some 5%Q) 1].
Proof. reflexivity. Qed.

(** Groups come in ascending key order, whatever the row order. *)
Example groups_sorted :
  yearly_mean_rating [mkRow None None (Some 2%Q) (Some 2001);
                      mkRow None None (Some 4%Q) (Some 1999);
                      mkRow None None (Some 3%Q) (Some 2001);
                      mkRow None None (Some 1%Q) None]
  = [mkYearlyMean 1999 (Some 4%Q); mkYearlyMean 2001 (Some (5 # 2)%Q)].
Proof. reflexivity. Qed.

(** ** Facts about sorting *)

Section SortingFacts.
Context {A : Type} (le : A -> A -> bool).

Lemma insert_sorted_perm x l : insert_sorted le x l ≡ₚ x :: l.
Proof.
  induction l as [|y l IH]; simpl; [done|].
  destruct (le x y); [done|].
  rewrite IH. apply Permutation_swap.
Qed.

Lemma sort_values_perm l : sort_values le l ≡ₚ l.
Proof.
  induction l as [|x l IH]; simpl; [done|].
  rewrite insert_sorted_perm. by f_equiv.
Qed.

Lemma sort_values_length l : length (sort_values le l) = length l.
Proof. by rewrite sort_values_perm. Qed.

Lemma elem_of_sort_values x l : x ∈ sort_values le l ↔ x ∈ l.
Proof. by rewrite sort_values_perm. Qed.

Section Ordered.
Hypothesis le_total : ∀ x y, le x y = true ∨ le y x = true.
Hypothesis le_trans : ∀ x y z, le x y = true → le y z = true → le x z = true.

Lemma insert_sorted_sorted x l :
  StronglySorted (λ a b, le a b = true) l →
  StronglySorted (λ a b, le a b = true) (insert_sorted le x l).
Proof.
  induction 1 as [|y l Hl IH Hy]; simpl.
  - repeat constructor.
  - destruct (le x y) eqn:E.
    + constructor; [by constructor|].
      constructor; [done|].
      eapply Forall_impl; [exact Hy|]. intros z Hz. by eapply le_trans.
    + constructor; [done|].
      rewrite insert_sorted_perm. constructor; [|done].
      destruct (le_total x y); congruence.
Qed.

Lemma sort_values_sorted l :
  StronglySorted (λ a b, le a b = true) (sort_values le l).
Proof.
  induction l as [|x l IH]; simpl; [constructor|].
  by apply insert_sorted_sorted.
Qed.
End Ordered.
End SortingFacts.

Lemma StronglySorted_firstn {A} (R : A → A → Prop) n l :
  StronglySorted R l → StronglySorted R (firstn n l).
Proof.
  intros H. rewrite <- (firstn_skipn n l) in H.
  by apply StronglySorted_app_1_l in H.
Qed.

Lemma StronglySorted_weaken {A} (R1 R2 : A → A → Prop) l :
  (∀ a b, R1 a b → R2 a b) → StronglySorted R1 l → StronglySorted R2 l.
Proof.
  intros HR. induction 1 as [|x l Hl IH Hx]; constructor; [done|].
  eapply Forall_impl; [exact Hx|]. intros y. apply HR.
Qed.

(** ** Facts about distinct values and their frequencies *)

Lemma Zsum_perm l1 l2 : l1 ≡ₚ l2 → Zsum l1 = Zsum l2.
Proof. induction 1; simpl in *; lia. Qed.

Section UniqueFacts.
Context {K : Type} `{EqDecision K}.
Implicit Types (s seen ks : list K) (x k : K).

Lemma elem_of_unique_from seen s x :
  x ∈ unique_from seen s ↔ x ∈ s ∧ x ∉ seen.
Proof.
  revert seen. induction s as [|y s IH]; intros seen; simpl.
  - set_solver.
  - case_decide as Hy.
    + rewrite IH. set_solver.
    + rewrite elem_of_cons, IH. destruct (decide (x = y)); set_solver.
Qed.

Lemma NoDup_unique_from seen s : NoDup (unique_from seen s).
Proof.
  revert seen. induction s as [|y s IH]; intros seen; simpl.
  - constructor.
  - case_decide; [done|].
    apply NoDup_cons. split; [|done].
    rewrite elem_of_unique_from. set_solver.
Qed.

Lemma elem_of_unique s x : x ∈ unique s ↔ x ∈ s.
Proof. unfold unique. rewrite elem_of_unique_from. set_solver. Qed.

Lemma NoDup_unique s : NoDup (unique s).
Proof. apply NoDup_unique_from. Qed.

Lemma occurrences_nil k : occurrences k [] = 0.
Proof. done. Qed.

Lemma occurrences_cons k x s :
  occurrences k (x :: s) = (if decide (x = k) then 1 else 0) + occurrences k s.
Proof.
  unfold occurrences. simpl.
  case_decide; [rewrite bool_decide_eq_true_2|rewrite bool_decide_eq_false_2];
    try done; simpl; lia.
Qed.

Lemma occurrences_nonneg k s : 0 ≤ occurrences k s.
Proof. unfold occurrences. lia. Qed.

Lemma occurrences_pos k s : k ∈ s ↔ 0 < occurrences k s.
Proof.
  induction s as [|x s IH].
  - rewrite occurrences_nil. split; [by intros ?%elem_of_nil|lia].
  - rewrite occurrences_cons, elem_of_cons. pose proof (occurrences_nonneg k s).
    case_decide; subst; [split; [lia|by left]|].
    rewrite IH. split; [intros [?|?]; [congruence|lia]|intros; right; lia].
Qed.

Lemma sum_indicator ks x :
  NoDup ks → x ∈ ks →
  Zsum (map (λ k, if decide (x = k) then 1 else 0) ks) = 1.
Proof.
  induction 1 as [|k ks Hk Hks IH]; [by intros ?%elem_of_nil|].
  intros Hx. simpl. case_decide; subst.
  - assert (Zsum (map (λ k0, if decide (k = k0) then 1 else 0) ks) = 0) as ->; [|done].
    clear IH Hx Hks. induction ks as [|k' ks IH]; [done|]. simpl.
    case_decide; [set_solver|]. rewrite IH; [done|set_solver].
  - rewrite IH; [done|set_solver].
Qed.

Lemma Zsum_map_add {B} (f g : B → Z) (l : list B) :
  Zsum (map (λ b, f b + g b) l) = Zsum (map f l) + Zsum (map g l).
Proof. induction l; simpl; lia. Qed.

(** Counting by key loses nothing: over keys that are distinct and cover
    the column, the frequencies add up to the column's length. *)
Lemma sum_occurrences ks s :
  NoDup ks → (∀ x, x ∈ s → x ∈ ks) →
  Zsum (map (λ k, occurrences k s) ks) = Z.of_nat (length s).
Proof.
  intros Hnd. induction s as [|x s IH]; intros Hin.
  - clear Hnd Hin. induction ks as [|k ks IHks]; simpl in *; [done|].
    by rewrite IHks.
  - erewrite map_ext; [|intros k; apply occurrences_cons].
    rewrite Zsum_map_add, IH by set_solver.
    rewrite sum_indicator by set_solver. simpl. lia.
Qed.
End UniqueFacts.

(** ** Facts about columns and [value_counts] *)

Lemma elem_of_dropna {A} (s : list (option A)) x : x ∈ dropna s ↔ Some x ∈ s.
Proof.
  unfold dropna. rewrite list_elem_of_omap. split.
  - by intros ([y|] & Hy & E); simplify_eq/=.
  - intros Hx. by exists (Some x).
Qed.

Lemma elem_of_column {K} (key : rating_record → option K) (df : table) k :
  k ∈ dropna (map key df) ↔ ∃ r, r ∈ df ∧ key r = Some k.
Proof.
  rewrite elem_of_dropna, list_elem_of_fmap. naive_solver.
Qed.

Lemma occurrences_column {K} `{EqDecision K}
    (key : rating_record → option K) (k : K) (df : table) :
  occurrences k (dropna (map key df))
  = count_rows (λ r, bool_decide (key r = Some k)) df.
Proof.
  unfold count_rows. induction df as [|r df IH]; [done|]. simpl.
  destruct (key r) as [k'|]; simpl.
  - rewrite occurrences_cons, IH.
    destruct (decide (k' = k)) as [->|Hne].
    + rewrite bool_decide_eq_true_2 by done. simpl. lia.
    + rewrite bool_decide_eq_false_2 by congruence. lia.
  - apply IH.
Qed.

Lemma length_dropna_genres (df : table) :
  Z.of_nat (length (dropna (map genres df))) = count_rows has_genres df.
Proof.
  unfold count_rows, has_genres.
  induction df as [|r df IH]; [done|]. simpl.
  destruct (genres r); simpl in *; lia.
Qed.

Lemma count_rows_nonneg p df : 0 ≤ count_rows p df.
Proof. unfold count_rows. lia. Qed.

Lemma count_rows_filter p q df :
  count_rows p (List.filter q df) = count_rows (λ r, q r && p r) df.
Proof.
  unfold count_rows. induction df as [|r df IH]; [done|]. simpl.
  destruct (q r); simpl; [destruct (p r); simpl in *; lia|done].
Qed.

Lemma count_rows_mono p q df :
  (∀ r, p r = true → q r = true) → count_rows p df ≤ count_rows q df.
Proof.
  intros Hpq. unfold count_rows. induction df as [|r df IH]; [done|]. simpl.
  destruct (p r) eqn:E.
  - rewrite (Hpq _ E). simpl. lia.
  - destruct (q r); simpl; lia.
Qed.


Lemma count_ge_total a b : count_ge a b = true ∨ count_ge b a = true.
Proof. unfold count_ge. lia. Qed.

Lemma count_ge_trans a b c :
  count_ge a b = true → count_ge b c = true → count_ge a c = true.
Proof. unfold count_ge. lia. Qed.

Lemma value_counts_perm s :
  value_counts s
  ≡ₚ map (λ k, mkGenreCount k (occurrences k (dropna s))) (unique (dropna s)).
Proof. apply sort_values_perm. Qed.

Lemma elem_of_value_counts s gc :
  gc ∈ value_counts s ↔
  genre gc ∈ dropna s ∧ count gc = occurrences (genre gc) (dropna s).
Proof.
  rewrite value_counts_perm, list_elem_of_fmap. split.
  - intros (k & -> & Hk). rewrite elem_of_unique in Hk. simpl. by split.
  - intros [Hg Hc]. exists (genre gc). rewrite elem_of_unique.
    split; [|done]. destruct gc; simpl in *. by subst.
Qed.

Lemma value_counts_genres s : map genre (value_counts s) ≡ₚ unique (dropna s).
Proof.
  rewrite value_counts_perm, map_map. simpl. by rewrite map_id.
Qed.

Lemma NoDup_value_counts s : NoDup (map genre (value_counts s)).
Proof. rewrite value_counts_genres. apply NoDup_unique. Qed.

Lemma value_counts_sum s :
  Zsum (map count (value_counts s)) = Z.of_nat (length (dropna s)).
Proof.
  rewrite (Zsum_perm _ _ (Permutation_map count (value_counts_perm s))), map_map.
  simpl. apply sum_occurrences; [apply NoDup_unique|].
  intros x. by rewrite elem_of_unique.
Qed.

Lemma value_counts_sorted s :
  StronglySorted (λ a b, count b ≤ count a) (value_counts s).
Proof.
  eapply StronglySorted_weaken;
    [|apply (sort_values_sorted count_ge count_ge_total count_ge_trans)].
  intros a b. unfold count_ge. lia.
Qed.

Lemma value_counts_positive s : Forall (λ gc, 1 ≤ count gc) (value_counts s).
Proof.
  apply Forall_forall. intros gc [Hg Hc]%elem_of_value_counts.
  apply occurrences_pos in Hg. lia.
Qed.

Lemma value_counts_nil s : dropna s = [] → value_counts s = [].
Proof. unfold value_counts. by intros ->. Qed.

(** ** Facts about [groupby] and the aggregations *)

Section GroupFacts.
Context {K : Type} `{EqDecision K}.
Context (key : rating_record → option K) (leb : K → K → bool).

Lemma groupby_keys df :
  map fst (groupby key leb df) = sort_values leb (unique (dropna (map key df))).
Proof. unfold groupby. rewrite map_map. simpl. apply map_id. Qed.


Lemma NoDup_groupby_keys df : NoDup (map fst (groupby key leb df)).
Proof. rewrite groupby_keys, sort_values_perm. apply NoDup_unique. Qed.

Lemma elem_of_groupby df g :
  g ∈ groupby key leb df ↔
  (∃ r, r ∈ df ∧ key r = Some (fst g)) ∧
  snd g = List.filter (λ r, bool_decide (key r = Some (fst g))) df.
Proof.
  unfold groupby. rewrite list_elem_of_fmap. split.
  - intros (k & -> & Hk). simpl. split; [|done].
    by rewrite elem_of_sort_values, elem_of_unique, elem_of_column in Hk.
  - intros [Hk Hg]. exists (fst g). split.
    + destruct g; simpl in *. by subst.
    + by rewrite elem_of_sort_values, elem_of_unique, elem_of_column.
Qed.
End GroupFacts.

Lemma length_ratings p df :
  Z.of_nat (length (ratings_where p df))
  = count_rows (λ r, p r && has_rating r) df.
Proof.
  unfold ratings_where, count_rows, has_rating.
  induction df as [|r df IH]; [done|]. simpl.
  destruct (p r); simpl; [|done]. destruct (rating r); simpl in *; lia.
Qed.

Lemma mean_filter p df :
  mean (map rating (List.filter p df)) = float_mean (ratings_where p df).
Proof. done. Qed.

Lemma float_mean_is_Some (v : list Q) : v ≠ [] ↔ is_Some (float_mean v).
Proof.
  destruct v; simpl; split; try done; try (by intros [? ?]); by eexists.
Qed.

Lemma count_valid_filter p df :
  count_valid (map rating (List.filter p df))
  = count_rows (λ r, p r && has_rating r) df.
Proof. apply length_ratings. Qed.

Lemma Qsum_lower l lo :
  (∀ x, x ∈ l → (lo <= x)%Q) →
  (inject_Z (Z.of_nat (length l)) * lo <= Qsum l)%Q.
Proof.
  induction l as [|x l IH]; intros Hlo.
  - simpl. rewrite Qmult_0_l. apply Qle_refl.
  - cbn [length Qsum foldr]. rewrite Nat2Z.inj_succ. unfold Z.succ.
    rewrite inject_Z_plus.
    assert ((inject_Z (Z.of_nat (length l)) + inject_Z 1) * lo
            == lo + inject_Z (Z.of_nat (length l)) * lo)%Q as -> by ring.
    apply Qplus_le_compat; [apply Hlo; by left|].
    apply IH. intros y Hy. apply Hlo. by right.
Qed.

Lemma Qsum_upper l hi :
  (∀ x, x ∈ l → (x <= hi)%Q) →
  (Qsum l <= inject_Z (Z.of_nat (length l)) * hi)%Q.
Proof.
  induction l as [|x l IH]; intros Hhi.
  - simpl. rewrite Qmult_0_l. apply Qle_refl.
  - cbn [length Qsum foldr]. rewrite Nat2Z.inj_succ. unfold Z.succ.
    rewrite inject_Z_plus.
    assert ((inject_Z (Z.of_nat (length l)) + inject_Z 1) * hi
            == hi + inject_Z (Z.of_nat (length l)) * hi)%Q as -> by ring.
    apply Qplus_le_compat; [apply Hhi; by left|].
    apply IH. intros y Hy. apply Hhi. by right.
Qed.

(** ** Facts about binary64 rounding *)

Lemma two_pow_pos e : (0 < two_pow e)%Q.
Proof. apply Qpower_0_lt. reflexivity. Qed.

Lemma two_pow_le a b : a ≤ b → (two_pow a <= two_pow b)%Q.
Proof. intros H. apply Qpower_le_compat_l; [done|discriminate]. Qed.

Lemma two_pow_lt_inv a b : (two_pow a < two_pow b)%Q → a < b.
Proof. intros H. eapply Qpower_lt_compat_l_inv; [exact H|reflexivity]. Qed.

Lemma two_pow_plus a b : (two_pow (a + b) == two_pow a * two_pow b)%Q.
Proof. apply Qpower_plus. discriminate. Qed.

Lemma two_pow_inject a : 0 ≤ a → (two_pow a == inject_Z (2 ^ a))%Q.
Proof. intros H. symmetry. by apply (Zpower_Qpower 2). Qed.

Lemma Qlog2_bounds (n : Z) (d : positive) :
  0 < n →
  (two_pow (Z.log2 n - Z.log2 (Zpos d) - 1) <= n # d)%Q ∧
  (n # d < two_pow (Z.log2 n - Z.log2 (Zpos d) + 1))%Q.
Proof.
  intros Hn.
  destruct (Z.log2_spec n Hn) as [Hn1 Hn2].
  destruct (Z.log2_spec (Zpos d) eq_refl) as [Hd1 Hd2].
  pose proof (Z.log2_nonneg n) as Ha. pose proof (Z.log2_nonneg (Zpos d)) as Hb.
  set (a := Z.log2 n) in *. set (b := Z.log2 (Zpos d)) in *.
  assert (0 < inject_Z (Zpos d))%Q as Hdpos by reflexivity.
  rewrite (Qmake_Qdiv n d). split.
  - apply Qle_shift_div_l; [done|].
    apply Qle_trans with (two_pow (a - b - 1) * two_pow (b + 1))%Q.
    + apply Qmult_le_l; [apply two_pow_pos|].
      rewrite two_pow_inject by lia. rewrite <- Zle_Qle. lia.
    + rewrite <- two_pow_plus. replace (a - b - 1 + (b + 1)) with a by lia.
      rewrite two_pow_inject by lia. by rewrite <- Zle_Qle.
  - apply Qlt_shift_div_r; [done|].
    apply Qlt_le_trans with (two_pow (a - b + 1) * two_pow b)%Q.
    + rewrite <- two_pow_plus. replace (a - b + 1 + b) with (Z.succ a) by lia.
      rewrite two_pow_inject by lia. by rewrite <- Zlt_Qlt.
    + apply Qmult_le_l; [apply two_pow_pos|].
      rewrite two_pow_inject by lia. by rewrite <- Zle_Qle.
Qed.

Lemma Qlog2_spec (q : Q) :
  (0 < q)%Q → (two_pow (Qlog2 q) <= q)%Q ∧ (q < two_pow (Qlog2 q + 1))%Q.
Proof.
  intros Hq. destruct q as [n d].
  assert (0 < n) as Hn. { unfold Qlt in Hq. simpl in Hq. lia. }
  destruct (Qlog2_bounds n d Hn) as [Hlo Hhi].
  unfold Qlog2. simpl Qnum. simpl Qden.
  set (k := Z.log2 n - Z.log2 (Zpos d)) in *.
  destruct (Qle_bool (two_pow k) (n # d)) eqn:E.
  - apply Qle_bool_iff in E. by split.
  - split; [done|]. replace (k - 1 + 1) with k by lia.
    apply Qnot_le_lt. intros H. apply Qle_bool_iff in H. congruence.
Qed.

Lemma Qlog2_mono (x y : Q) : (0 < x)%Q → (x <= y)%Q → Qlog2 x ≤ Qlog2 y.
Proof.
  intros Hx Hxy. assert (0 < y)%Q as Hy by (by eapply Qlt_le_trans).
  destruct (Qlog2_spec x Hx) as [Hx1 _]. destruct (Qlog2_spec y Hy) as [_ Hy2].
  assert (two_pow (Qlog2 x) < two_pow (Qlog2 y + 1))%Q as H.
  { eapply Qle_lt_trans; [exact Hx1|]. by eapply Qle_lt_trans. }
  apply two_pow_lt_inv in H. lia.
Qed.


Lemma round_half_even_comp (x y : Q) :
  (x == y)%Q → round_half_even x = round_half_even y.
Proof.
  intros H. unfold round_half_even.
  rewrite (Qfloor_comp x y H).
  assert ((x - inject_Z (Qfloor y) ?= 1 # 2)%Q
          = (y - inject_Z (Qfloor y) ?= 1 # 2)%Q) as ->; [|done].
  apply Qcompare_comp; [|reflexivity]. by rewrite H.
Qed.

Lemma round_half_even_Z (z : Z) : round_half_even (inject_Z z) = z.
Proof.
  unfold round_half_even. rewrite Qfloor_Z.
  assert ((inject_Z z - inject_Z z ?= 1 # 2)%Q = Lt) as ->; [|done].
  apply Qlt_alt. unfold Qminus. by rewrite Qplus_opp_r.
Qed.

Lemma round_half_even_range (x : Q) :
  Qfloor x ≤ round_half_even x ≤ Qfloor x + 1.
Proof.
  unfold round_half_even.
  destruct (x - inject_Z (Qfloor x) ?= 1 # 2)%Q; [destruct (Z.even _)|..]; lia.
Qed.

Lemma round_half_even_mono (x y : Q) :
  (x <= y)%Q → round_half_even x ≤ round_half_even y.
Proof.
  intros Hxy. pose proof (Qfloor_resp_le x y Hxy) as Hf.
  destruct (Z.eq_dec (Qfloor x) (Qfloor y)) as [E|NE].
  - unfold round_half_even. rewrite <- E.
    assert (x - inject_Z (Qfloor x) <= y - inject_Z (Qfloor x))%Q as Hr.
    { apply Qplus_le_l. exact Hxy. }
    destruct (Qcompare_spec (x - inject_Z (Qfloor x)) (1 # 2)) as [Hx|Hx|Hx];
      destruct (Qcompare_spec (y - inject_Z (Qfloor x)) (1 # 2)) as [Hy|Hy|Hy];
      try (destruct (Z.even (Qfloor x)); lia); try lia; exfalso.
    + rewrite Hx in Hr. by apply Qle_not_lt in Hr.
    + rewrite Hy in Hr. by apply Qle_not_lt in Hr.
    + apply Qle_not_lt in Hr. apply Hr. by eapply Qlt_trans.
  - pose proof (round_half_even_range x). pose proof (round_half_even_range y).
    lia.
Qed.

Lemma round_to_comp (e : Z) (x y : Q) :
  (x == y)%Q → round_to e x = round_to e y.
Proof.
  intros H. unfold round_to.
  by rewrite (round_half_even_comp (x / two_pow e) (y / two_pow e))
    by (by rewrite H).
Qed.

Lemma round_to_mono (e : Z) (x y : Q) :
  (x <= y)%Q → (round_to e x <= round_to e y)%Q.
Proof.
  intros Hxy. unfold round_to.
  apply Qmult_le_compat_r; [|apply Qlt_le_weak, two_pow_pos].
  rewrite <- Zle_Qle. apply round_half_even_mono.
  apply Qmult_le_compat_r; [done|].
  apply Qlt_le_weak, Qinv_lt_0_compat, two_pow_pos.
Qed.

Lemma round_to_grid (e z : Z) (x : Q) :
  (x == inject_Z z * two_pow e)%Q → (round_to e x == x)%Q.
Proof.
  intros Hx. unfold round_to.
  rewrite (round_half_even_comp _ (inject_Z z)), round_half_even_Z; [by rewrite Hx|].
  rewrite Hx. apply Qdiv_mult_l.
  intros H0. pose proof (two_pow_pos e) as Hp. rewrite H0 in Hp. discriminate.
Qed.

Lemma two_pow_grid (a e : Z) :
  e ≤ a → (two_pow a == inject_Z (2 ^ (a - e)) * two_pow e)%Q.
Proof.
  intros H. rewrite <- two_pow_inject by lia. rewrite <- two_pow_plus.
  by replace (a - e + e) with a by lia.
Qed.

Lemma ulp_exponent_mono (x y : Q) :
  (0 < x)%Q → (x <= y)%Q → ulp_exponent x ≤ ulp_exponent y.
Proof. intros Hx Hxy. pose proof (Qlog2_mono x y Hx Hxy). unfold ulp_exponent. lia. Qed.

(** Rounding of positive values is monotone across binades. *)
Lemma round_pos_mono (x y : Q) :
  (0 < x)%Q → (x <= y)%Q →
  (round_to (ulp_exponent x) x <= round_to (ulp_exponent y) y)%Q.
Proof.
  intros Hx Hxy. assert (0 < y)%Q as Hy by (by eapply Qlt_le_trans).
  pose proof (Qlog2_mono x y Hx Hxy) as Hlog.
  destruct (Z.eq_dec (ulp_exponent x) (ulp_exponent y)) as [E|NE].
  - rewrite E. by apply round_to_mono.
  - assert (ulp_exponent x < ulp_exponent y) as Hlt.
    { pose proof (ulp_exponent_mono x y Hx Hxy). lia. }
    destruct (Qlog2_spec x Hx) as [_ Hx2]. destruct (Qlog2_spec y Hy) as [Hy1 _].
    set (b := two_pow (Qlog2 y)).
    assert (x <= b)%Q as Hxb.
    { apply Qlt_le_weak. eapply Qlt_le_trans; [exact Hx2|].
      apply two_pow_le. unfold ulp_exponent in Hlt. lia. }
    apply Qle_trans with b.
    + rewrite <- (round_to_grid (ulp_exponent x)
                   (2 ^ (Qlog2 y - ulp_exponent x)) b).
      * by apply round_to_mono.
      * apply two_pow_grid. unfold ulp_exponent in *. lia.
    + rewrite <- (round_to_grid (ulp_exponent y)
                   (2 ^ (Qlog2 y - ulp_exponent y)) b) at 1.
      * by apply round_to_mono.
      * apply two_pow_grid. unfold ulp_exponent in *. lia.
Qed.

Lemma round_to_nonneg (e : Z) (x : Q) : (0 <= x)%Q → (0 <= round_to e x)%Q.
Proof.
  intros Hx. rewrite <- (round_to_grid e 0 0%Q) by (by rewrite Qmult_0_l).
  by apply round_to_mono.
Qed.

Lemma round64_comp (x y : Q) : (x == y)%Q → round64 x = round64 y.
Proof. intros H. unfold round64. by rewrite (Qred_complete x y H). Qed.

Lemma round64_zero (x : Q) : (x == 0)%Q → round64 x = 0%Q.
Proof. intros H. by rewrite (round64_comp x 0 H). Qed.

Lemma round64_mono (x y : Q) : (x <= y)%Q → (round64 x <= round64 y)%Q.
Proof.
  intros Hxy. unfold round64.
  assert (Qred x <= Qred y)%Q as Hr by (by rewrite !Qred_correct).
  set (x' := Qred x) in *. set (y' := Qred y) in *. clearbody x' y'.
  destruct (Qcompare_spec x' 0) as [Hx|Hx|Hx];
    destruct (Qcompare_spec y' 0) as [Hy|Hy|Hy];
    repeat rewrite Qred_correct.
  - apply Qle_refl.
  - exfalso. rewrite Hx in Hr. by apply Qle_not_lt in Hr.
  - apply round_to_nonneg. by apply Qlt_le_weak.
  - rewrite <- (Qopp_opp 0). apply Qopp_le_compat.
    apply round_to_nonneg. rewrite <- (Qopp_opp 0). apply Qopp_le_compat.
    by apply Qlt_le_weak.
  - apply Qopp_le_compat. apply round_pos_mono.
    + rewrite <- (Qopp_opp 0). by apply Qopp_lt_compat.
    + by apply Qopp_le_compat.
  - apply Qle_trans with 0%Q.
    + change 0%Q with (- 0)%Q. apply Qopp_le_compat.
      apply round_to_nonneg. change 0%Q with (- 0)%Q. apply Qopp_le_compat.
      by apply Qlt_le_weak.
    + apply round_to_nonneg. by apply Qlt_le_weak.
  - exfalso. rewrite Hy in Hr. by apply Qle_not_lt in Hr.
  - exfalso. apply Qle_not_lt in Hr. apply Hr. by eapply Qlt_trans.
  - by apply round_pos_mono.
Qed.

Lemma is_float64_spec (q : Q) : is_float64 q = true ↔ (round64 q == q)%Q.
Proof. unfold is_float64. apply Qeq_bool_iff. Qed.

Lemma kahan_step_exact (st : Q * Q) (s x : Q) :
  (fst st == s)%Q → (snd st == 0)%Q →
  (round64 x == x)%Q → (round64 (s + x) == s + x)%Q →
  (fst (kahan_step st x) == s + x)%Q ∧ (snd (kahan_step st x) == 0)%Q.
Proof.
  intros Hs Hc Hx Hsx. unfold kahan_step, fsub, fadd. cbn [fst snd].
  assert (round64 (x - snd st) = round64 x) as Ey.
  { apply round64_comp. rewrite Hc. ring. }
  rewrite Ey.
  assert (round64 (fst st + round64 x) = round64 (s + x)) as Et.
  { apply round64_comp. by rewrite Hs, Hx. }
  rewrite Et. split; [done|].
  assert (round64 (round64 (s + x) - fst st) = round64 x) as Ed.
  { apply round64_comp. rewrite Hsx, Hs. ring. }
  rewrite Ed. rewrite round64_zero; [done|]. ring.
Qed.

Lemma kahan_exact (l : list Q) (st : Q * Q) (s : Q) :
  (fst st == s)%Q → (snd st == 0)%Q →
  forallb is_float64 l = true →
  forallb is_float64 (running_sums s l) = true →
  (fst (fold_left kahan_step l st) == s + Qsum l)%Q.
Proof.
  revert st s. induction l as [|x l IH]; intros st s Hs Hc Hl Hr.
  - simpl. rewrite Hs. ring.
  - cbn [forallb running_sums] in Hl, Hr.
    apply andb_true_iff in Hl as [Hx Hl]. apply andb_true_iff in Hr as [Hsx Hr].
    apply is_float64_spec in Hx. apply is_float64_spec in Hsx.
    destruct (kahan_step_exact st s x Hs Hc Hx Hsx) as [Ht Hc'].
    cbn [fold_left]. rewrite (IH _ (s + x)%Q Ht Hc' Hl Hr).
    cbn [Qsum foldr]. fold (Qsum l). ring.
Qed.

Lemma float_sum_exact (l : list Q) :
  exactly_summable l = true → (float_sum l == Qsum l)%Q.
Proof.
  intros [Hl Hr]%andb_true_iff. unfold float_sum.
  rewrite (kahan_exact l (0%Q, 0%Q) 0%Q); [ring|reflexivity|reflexivity|done|done].
Qed.

(** Representable values are fixed points of the rounding. *)
Lemma round_pos_representable (x : Q) (z e : Z) :
  (0 < x)%Q → 0 < z < 2 ^ 53 → -1074 ≤ e →
  (x == inject_Z z * two_pow e)%Q →
  (round_to (ulp_exponent x) x == x)%Q.
Proof.
  intros Hx Hz He Hxz.
  destruct (Qlog2_spec x Hx) as [Hlo _].
  assert (x < two_pow (53 + e))%Q as Hhi.
  { rewrite Hxz, two_pow_plus. apply Qmult_lt_compat_r; [apply two_pow_pos|].
    rewrite two_pow_inject by lia. rewrite <- Zlt_Qlt. lia. }
  assert (Qlog2 x < 53 + e) as Hlog.
  { apply two_pow_lt_inv. by eapply Qle_lt_trans. }
  assert (ulp_exponent x ≤ e) as Hue by (unfold ulp_exponent; lia).
  apply (round_to_grid _ (z * 2 ^ (e - ulp_exponent x))).
  etransitivity; [exact Hxz|].
  rewrite inject_Z_mult, <- Qmult_assoc. apply Qmult_comp; [reflexivity|].
  by apply two_pow_grid.
Qed.

Lemma round64_representable (x : Q) (z e : Z) :
  Z.abs z < 2 ^ 53 → -1074 ≤ e →
  (x == inject_Z z * two_pow e)%Q → (round64 x == x)%Q.
Proof.
  intros Hz He Hxz. unfold round64.
  assert (Qred x == inject_Z z * two_pow e)%Q as Hr by (by rewrite Qred_correct).
  set (x' := Qred x) in *. rewrite <- (Qred_correct x). fold x'. clearbody x'.
  destruct (Qcompare_spec x' 0) as [H0|Hneg|Hpos].
  - by rewrite H0.
  - rewrite Qred_correct.
    rewrite (round_pos_representable (- x') (- z) e); [apply Qopp_opp| | |done|].
    + change 0%Q with (- 0)%Q. by apply Qopp_lt_compat.
    + assert (z < 0); [|lia].
      destruct (Z.lt_ge_cases z 0) as [|Hz0]; [done|exfalso].
      apply (Qlt_not_le _ _ Hneg). rewrite Hr.
      apply Qmult_le_0_compat; [|apply Qlt_le_weak, two_pow_pos].
      change 0%Q with (inject_Z 0). by rewrite <- Zle_Qle.
    + rewrite Hr, inject_Z_opp. ring.
  - rewrite Qred_correct. apply (round_pos_representable x' z e); try done.
    assert (0 < z); [|lia].
    destruct (Z.lt_ge_cases 0 z) as [|Hz0]; [done|exfalso].
    apply (Qlt_not_le _ _ Hpos). rewrite Hr.
    rewrite <- (Qmult_0_l (two_pow e)).
    apply Qmult_le_compat_r; [|apply Qlt_le_weak, two_pow_pos].
    change 0%Q with (inject_Z 0). by rewrite <- Zle_Qle.
Qed.

Lemma half_integer_float64 (k : Z) (x : Q) :
  Z.abs k < 2 ^ 53 → (x == k # 2)%Q → is_float64 x = true.
Proof.
  intros Hk Hx. apply is_float64_spec.
  apply (round64_representable x k (-1)); [done|lia|].
  rewrite Hx. rewrite (Qmake_Qdiv k 2). reflexivity.
Qed.

Lemma half_star_running_sums (l : list Q) (acc : Q) (a : Z) :
  (acc == a # 2)%Q → 0 ≤ a → a + 10 * Z.of_nat (length l) < 2 ^ 53 →
  Forall half_star l →
  forallb is_float64 (running_sums acc l) = true.
Proof.
  revert acc a. induction l as [|x l IH]; intros acc a Hacc Ha Hlen Hl; [done|].
  apply Forall_cons in Hl as [(k & Hk & Hx) Hl].
  cbn [running_sums forallb length] in *.
  assert (acc + x == (a + k) # 2)%Q as Hsum.
  { rewrite Hacc, Hx. unfold Qeq. simpl. lia. }
  apply andb_true_iff. split.
  - apply (half_integer_float64 (a + k)); [lia|done].
  - apply (IH _ (a + k)); [done|lia|lia|done].
Qed.

(** Ratings on the half-star scale, fewer than 2^49 of them, are summed
    exactly. *)
Lemma half_star_exactly_summable (l : list Q) :
  Forall half_star l → Z.of_nat (length l) < 2 ^ 49 →
  exactly_summable l = true.
Proof.
  intros Hl Hlen. unfold exactly_summable. apply andb_true_iff. split.
  - apply forallb_forall. intros x Hx.
    rewrite Forall_forall in Hl. destruct (Hl x) as (k & Hk & Hxk).
    { by apply list_elem_of_In. }
    apply (half_integer_float64 k); [lia|done].
  - apply (half_star_running_sums l 0%Q 0); [reflexivity|lia|lia|done].
Qed.

(** The float64 mean of exactly summable values is the float64 nearest to
    their exact mean. *)
Lemma float_mean_exact (v : list Q) (q : Q) :
  exactly_summable v = true → float_mean v = Some q →
  q = round64 (Qsum v / inject_Z (Z.of_nat (length v))).
Proof.
  intros Hex Hq. destruct v as [|x l]; [done|].
  injection Hq as <-. unfold fdiv. apply round64_comp.
  by rewrite (float_sum_exact _ Hex).
Qed.

(** The float64 mean of exactly summable values lies between any lower and
    any upper bound of the values that is itself a float64 value. *)
Lemma float_mean_bounds (v : list Q) (q lo hi : Q) :
  exactly_summable v = true → float_mean v = Some q →
  is_float64 lo = true → is_float64 hi = true →
  (∀ x, x ∈ v → (lo <= x)%Q ∧ (x <= hi)%Q) →
  (lo <= q)%Q ∧ (q <= hi)%Q.
Proof.
  intros Hex Hq Hlo Hhi Hb.
  rewrite (float_mean_exact v q Hex Hq).
  apply is_float64_spec in Hlo, Hhi.
  assert (0 < inject_Z (Z.of_nat (length v)))%Q as Hn.
  { destruct v; [done|]. rewrite <- (Zlt_Qlt 0). simpl. lia. }
  split.
  - rewrite <- Hlo at 1. apply round64_mono.
    apply Qle_shift_div_l; [done|]. rewrite Qmult_comm.
    apply Qsum_lower. intros x Hx. by apply Hb.
  - rewrite <- Hhi at 1. apply round64_mono.
    apply Qle_shift_div_r; [done|]. rewrite Qmult_comm.
    apply Qsum_upper. intros x Hx. by apply Hb.
Qed.

Lemma exactly_summable_elem (v : list Q) (x : Q) :
  exactly_summable v = true → x ∈ v → is_float64 x = true.
Proof.
  intros [Hv _]%andb_true_iff Hx. rewrite forallb_forall in Hv.
  apply Hv. by apply list_elem_of_In.
Qed.

(** A non-empty list of ratings has a least and a greatest element. *)
Lemma Qlist_extrema (l : list Q) :
  l ≠ [] →
  ∃ lo hi, lo ∈ l ∧ hi ∈ l ∧ ∀ x, x ∈ l → (lo <= x)%Q ∧ (x <= hi)%Q.
Proof.
  induction l as [|x l IH]; [done|]. intros _.
  destruct l as [|y l].
  - exists x, x. split_and!; [by left|by left|].
    intros z ->%list_elem_of_singleton. split; apply Qle_refl.
  - destruct IH as (lo & hi & Hlo & Hhi & Hb); [done|].
    destruct (Qlt_le_dec x lo) as [Hxlo|Hxlo];
      destruct (Qlt_le_dec hi x) as [Hxhi|Hxhi].
    + exists x, x. split_and!; [by left|by left|].
      intros z [->|Hz]%elem_of_cons; [split; apply Qle_refl|].
      destruct (Hb z Hz). split.
      * apply Qlt_le_weak. by eapply Qlt_le_trans.
      * apply Qlt_le_weak. by eapply Qle_lt_trans.
    + exists x, hi. split_and!; [by left|by right|].
      intros z [->|Hz]%elem_of_cons; [split; [apply Qle_refl|done]|].
      destruct (Hb z Hz). split; [|done].
      apply Qlt_le_weak. by eapply Qlt_le_trans.
    + exists lo, x. split_and!; [by right|by left|].
      intros z [->|Hz]%elem_of_cons; [split; [done|apply Qle_refl]|].
      destruct (Hb z Hz). split; [done|].
      apply Qlt_le_weak. by eapply Qle_lt_trans.
    + exists lo, hi. split_and!; [by right|by right|].
      intros z [->|Hz]%elem_of_cons; [done|]. by apply Hb.
Qed.

(** ** Facts about [head] and the order on [avg_rating] *)

Lemma elem_of_firstn {A} (k : nat) (l : list A) x : x ∈ firstn k l → x ∈ l.
Proof.
  intros Hx. rewrite <- (firstn_skipn k l). apply elem_of_app. by left.
Qed.

Lemma elem_of_head {A} (n : Z) (l : list A) x : x ∈ head n l → x ∈ l.
Proof. unfold head. destruct (0 <=? n); apply elem_of_firstn. Qed.

Lemma head_length {A} (n : Z) (l : list A) :
  0 ≤ n → Z.of_nat (length (head n l)) ≤ n.
Proof.
  intros Hn. unfold head. rewrite (proj2 (Z.leb_le 0 n)) by done.
  rewrite length_firstn. lia.
Qed.

Lemma head_sorted {A} (R : A → A → Prop) (n : Z) (l : list A) :
  StronglySorted R l → StronglySorted R (head n l).
Proof. unfold head. destruct (0 <=? n); apply StronglySorted_firstn. Qed.

Lemma head_nil {A} (n : Z) : head n (@nil A) = [].
Proof. unfold head. destruct (0 <=? n); apply firstn_nil. Qed.

Lemma avg_ge_total a b : avg_ge a b = true ∨ avg_ge b a = true.
Proof.
  unfold avg_ge. destruct (avg_rating a) as [x|], (avg_rating b) as [y|]; auto.
  rewrite !Qle_bool_iff. destruct (Qlt_le_dec x y) as [H|H]; [|by left].
  right. by apply Qlt_le_weak.
Qed.

Lemma avg_ge_trans a b c :
  avg_ge a b = true → avg_ge b c = true → avg_ge a c = true.
Proof.
  unfold avg_ge.
  destruct (avg_rating a) as [x|], (avg_rating b) as [y|],
    (avg_rating c) as [z|]; try done.
  rewrite !Qle_bool_iff. intros ??. by eapply Qle_trans.
Qed.

Lemma avg_ge_desc a b :
  is_Some (avg_rating a) → is_Some (avg_rating b) →
  avg_ge a b = true → avg_desc a b.
Proof.
  unfold avg_ge, avg_desc. intros [x ->] [y ->]. by rewrite Qle_bool_iff.
Qed.

Lemma StronglySorted_Forall_weaken {A} (P : A → Prop) (R1 R2 : A → A → Prop) l :
  (∀ a b, P a → P b → R1 a b → R2 a b) →
  Forall P l → StronglySorted R1 l → StronglySorted R2 l.
Proof.
  intros HR HP. induction 1 as [|x l Hl IH Hx]; [constructor|].
  apply Forall_cons in HP as [Px Pl]. constructor; [by apply IH|].
  rewrite Forall_forall in *. intros y Hy. apply HR; auto.
Qed.

(** ** Facts about the object store *)

Lemma lookup_snoc (h : store) (f : frame) : (h ++ [f]) !! length h = Some f.
Proof. by rewrite lookup_app_r, Nat.sub_diag by lia. Qed.

Lemma insert_snoc (h : store) (f g : frame) :
  <[length h := g]> (h ++ [f]) = h ++ [g].
Proof.
  rewrite insert_app_r_alt by lia. by rewrite Nat.sub_diag.
Qed.

Lemma plot_genre_counts_run (h : store) (df : ref) (t : table) :
  h !! df = Some (RatingsFrame t) →
  plot_genre_counts df h
  = Some (length h, h ++ [CountsFrame counts_columns (genre_counts t)]).
Proof.
  intros Hdf. unfold plot_genre_counts, mbind, py_bind, ratings_of.
  rewrite Hdf. unfold new, set_columns. rewrite lookup_snoc. simpl.
  by rewrite insert_snoc.
Qed.

Lemma plot_5star_treemap_run (h : store) (df : ref) (t : table) :
  h !! df = Some (RatingsFrame t) →
  plot_5star_treemap df h
  = Some (S (length h),
          h ++ [RatingsFrame (top_ratings t);
                CountsFrame counts_columns (five_star_genre_counts t)]).
Proof.
  intros Hdf. unfold plot_5star_treemap, mbind, py_bind, ratings_of at 1.
  rewrite Hdf. unfold new at 1. unfold ratings_of. rewrite lookup_snoc.
  unfold new, set_columns.
  replace (S (length h)) with (length (h ++ [RatingsFrame (top_ratings t)]))
    by (rewrite length_app; simpl; lia).
  rewrite lookup_snoc. simpl. rewrite insert_snoc.
  by rewrite <- app_assoc.
Qed.

Lemma plot_mean_rating_by_year_run (h : store) (df : ref) (t : table) :
  h !! df = Some (RatingsFrame t) →
  plot_mean_rating_by_year df h
  = Some (length h, h ++ [YearlyFrame (yearly_mean_rating t)]).
Proof.
  intros Hdf. unfold plot_mean_rating_by_year, mbind, py_bind, ratings_of.
  by rewrite Hdf.
Qed.

Lemma top_movies_table_run (h : store) (df : ref) (t : table) (m n : Z) :
  h !! df = Some (RatingsFrame t) →
  top_movies_table df m n h
  = Some (S (S (length h)),
          h ++ [StatsFrame (movie_stats t);
                StatsFrame (filtered_movies t m);
                StatsFrame (top_movies t m n)]).
Proof.
  intros Hdf. unfold top_movies_table, mbind, py_bind, ratings_of.
  rewrite Hdf. unfold new at 1. unfold stats_of at 1. rewrite lookup_snoc.
  unfold new at 1. unfold stats_of.
  replace (S (length h)) with (length (h ++ [StatsFrame (movie_stats t)]))
    by (rewrite length_app; simpl; lia).
  rewrite lookup_snoc. unfold new. rewrite !length_app. simpl.
  rewrite <- !app_assoc. simpl. do 3 f_equal. lia.
Qed.

(** ** Facts about the rows of the summaries *)

Lemma count_rows_ext_in p q df :
  (∀ r, r ∈ df → p r = q r) → count_rows p df = count_rows q df.
Proof.
  intros Hpq. unfold count_rows. induction df as [|r df IH]; [done|]. simpl.
  rewrite (Hpq r) by (by left).
  assert (length (List.filter p df) = length (List.filter q df)) as E.
  { apply Nat2Z.inj, IH. intros r' Hr'. apply Hpq. by right. }
  destruct (q r); simpl; lia.
Qed.

Lemma ratings_where_nonempty p df :
  0 < count_rows (λ r, p r && has_rating r) df → ratings_where p df ≠ [].
Proof.
  rewrite <- length_ratings. by destruct (ratings_where p df).
Qed.

Lemma elem_of_movie_stats df s :
  s ∈ movie_stats df →
  (∃ r, r ∈ df ∧ title r = Some (ms_title s)) ∧
  avg_rating s = float_mean (ratings_where (has_title (ms_title s)) df) ∧
  rating_count s
  = count_rows (λ r, has_title (ms_title s) r && has_rating r) df.
Proof.
  unfold movie_stats. rewrite list_elem_of_fmap.
  intros ([k g] & -> & [Hk Hg]%elem_of_groupby). simpl in *. subst g.
  split; [done|]. split; [apply mean_filter|apply count_valid_filter].
Qed.

Lemma elem_of_yearly_mean_rating df row :
  row ∈ yearly_mean_rating df →
  (∃ r, r ∈ df ∧ year r = Some (ymr_year row)) ∧
  mean_rating row = mean (map rating (List.filter (in_year (ymr_year row)) df)).
Proof.
  unfold yearly_mean_rating. rewrite list_elem_of_fmap.
  intros ([k g] & -> & [Hk Hg]%elem_of_groupby). simpl in *. by subst g.
Qed.

Lemma yearly_mean_rating_years df :
  map ymr_year (yearly_mean_rating df) = map fst (groupby year Z.leb df).
Proof. unfold yearly_mean_rating. by rewrite map_map. Qed.

Lemma Zleb_total (x y : Z) : (x <=? y) = true ∨ (y <=? x) = true.
Proof. lia. Qed.

Lemma Zleb_trans (x y z : Z) :
  (x <=? y) = true → (y <=? z) = true → (x <=? z) = true.
Proof. lia. Qed.


Lemma is_five_star_spec r :
  is_five_star r = true ↔ ∃ q, rating r = Some q ∧ (q == 5)%Q.
Proof.
  unfold is_five_star. destruct (rating r) as [q|].
  - rewrite Qeq_bool_iff. naive_solver.
  - naive_solver.
Qed.

(** ** The properties of the specification *)

(** C3 (completeness of [genre_counts]): the counts of the summary add up to
    the number of rows whose [genres] cell is present; every genre value
    present in the table has exactly one row in the summary (the genres of
    the summary are pairwise distinct and are exactly those of the table),
    and the count of a row is the number of table rows with that genre. *)
Theorem genre_counts_complete (df : table) :
  Zsum (map count (genre_counts df)) = count_rows has_genres df ∧
  NoDup (map genre (genre_counts df)) ∧
  (∀ g, g ∈ map genre (genre_counts df) ↔ ∃ r, r ∈ df ∧ genres r = Some g) ∧
  (∀ gc, gc ∈ genre_counts df → count gc = count_rows (in_genre (genre gc)) df).
Proof.
  unfold genre_counts. split_and!.
  - rewrite value_counts_sum. apply length_dropna_genres.
  - apply NoDup_value_counts.
  - intros g. by rewrite value_counts_genres, elem_of_unique, elem_of_column.
  - intros gc [_ ->]%elem_of_value_counts. apply occurrences_column.
Qed.

(** C10 (order and positivity of the genre summaries): the rows of
    [genre_counts] and of [five_star_genre_counts] come in non-increasing
    order of [count], and every count is at least 1. *)
Theorem genre_counts_sorted_positive (df : table) :
  StronglySorted (λ a b, count b ≤ count a) (genre_counts df) ∧
  Forall (λ gc, 1 ≤ count gc) (genre_counts df) ∧
  StronglySorted (λ a b, count b ≤ count a) (five_star_genre_counts df) ∧
  Forall (λ gc, 1 ≤ count gc) (five_star_genre_counts df).
Proof.
  unfold genre_counts, five_star_genre_counts.
  split_and!; auto using value_counts_sorted, value_counts_positive.
Qed.

(** C4 (five-star subset): a genre of [five_star_genre_counts] is a genre of
    [genre_counts] and its five-star count is at most its count there; the
    five-star count of a genre is the number of rows of that genre whose
    rating equals 5, the genres listed are those with such a row, and with
    no such row in the table the summary is empty. *)
Theorem five_star_subset (df : table) :
  (∀ fs, fs ∈ five_star_genre_counts df →
     count fs = count_rows (λ r, is_five_star r && in_genre (genre fs) r) df ∧
     ∃ gc, gc ∈ genre_counts df ∧ genre gc = genre fs ∧ count fs ≤ count gc) ∧
  (∀ g, g ∈ map genre (five_star_genre_counts df) ↔
        ∃ r q, r ∈ df ∧ rating r = Some q ∧ (q == 5)%Q ∧ genres r = Some g) ∧
  ((∀ r q, r ∈ df → rating r = Some q → ¬ (q == 5)%Q) →
   five_star_genre_counts df = []).
Proof.
  assert (∀ g, occurrences g (dropna (map genres (top_ratings df)))
               = count_rows (λ r, is_five_star r && in_genre g r) df) as Hocc.
  { intros g. rewrite occurrences_column. apply count_rows_filter. }
  unfold five_star_genre_counts, genre_counts. split_and!.
  - intros fs [Hg Hc]%elem_of_value_counts. rewrite Hocc in Hc.
    split; [done|].
    exists (mkGenreCount (genre fs) (occurrences (genre fs) (dropna (map genres df)))).
    rewrite elem_of_value_counts. simpl. split_and!; try done.
    + apply elem_of_column in Hg as (r & Hr & Hrg). apply elem_of_column.
      exists r. split; [|done].
      apply list_elem_of_In, filter_In in Hr as [Hr _]. by apply list_elem_of_In.
    + rewrite Hc, occurrences_column. apply count_rows_mono.
      intros r [_ ?]%andb_true_iff. done.
  - intros g. rewrite value_counts_genres, elem_of_unique, elem_of_column.
    unfold top_ratings. split.
    + intros (r & Hr & Hg). apply list_elem_of_In, filter_In in Hr as [Hr H5].
      apply is_five_star_spec in H5 as (q & Hq & H5).
      exists r, q. by rewrite list_elem_of_In.
    + intros (r & q & Hr & Hq & H5 & Hg). exists r. split; [|done].
      apply list_elem_of_In, filter_In. split; [by apply list_elem_of_In|].
      apply is_five_star_spec. eauto.
  - intros Hno. apply value_counts_nil.
    assert (top_ratings df = []) as ->; [|done].
    unfold top_ratings. clear Hocc. induction df as [|r df IH]; [done|]. simpl.
    destruct (is_five_star r) eqn:E.
    + apply is_five_star_spec in E as (q & Hq & H5).
      destruct (Hno r q); [by left|done|done].
    + apply IH. intros r' q' Hr'. apply Hno. by right.
Qed.


(** C8 (mean boundedness), as the code has it: the [mean_rating] of a row of
    [yearly_mean_rating] lies between the least and the greatest rating of
    the table's rows of that year when float64 sums that year's ratings
    without rounding (every rating and every running sum is a float64
    value, as for ratings on the half-star scale); it is NaN, and no bound
    applies, exactly when that year has no rating at all. *)
Theorem yearly_mean_bounded (df : table) (row : YearlyMeanRating) :
  row ∈ yearly_mean_rating df →
  exactly_summable (ratings_where (in_year (ymr_year row)) df) = true →
  match mean_rating row with
  | Some q =>
      ∃ lo hi,
        lo ∈ ratings_where (in_year (ymr_year row)) df ∧
        hi ∈ ratings_where (in_year (ymr_year row)) df ∧
        (∀ x, x ∈ ratings_where (in_year (ymr_year row)) df →
              (lo <= x)%Q ∧ (x <= hi)%Q) ∧
        (lo <= q)%Q ∧ (q <= hi)%Q
  | None => ratings_where (in_year (ymr_year row)) df = []
  end.
Proof.
  intros [_ Hmean]%elem_of_yearly_mean_rating Hex.
  rewrite mean_filter in Hmean.
  set (rs := ratings_where (in_year (ymr_year row)) df) in *.
  destruct (mean_rating row) as [q|].
  - destruct (Qlist_extrema rs) as (lo & hi & Hlo & Hhi & Hb).
    { intros E. by rewrite E in Hmean. }
    exists lo, hi. split_and!; [done|done|done|..];
      eapply (float_mean_bounds rs q lo hi); eauto using exactly_summable_elem.
  - by destruct rs.
Qed.

Lemma yearly_mean_bounded_witness :
  mkYearlyMean 1995 (Some 4%Q) ∈ yearly_mean_rating scenario ∧
  exactly_summable (ratings_where (in_year 1995) scenario) = true ∧
  ∃ lo hi,
    lo ∈ ratings_where (in_year 1995) scenario ∧
    hi ∈ ratings_where (in_year 1995) scenario ∧
    (∀ x, x ∈ ratings_where (in_year 1995) scenario →
          (lo <= x)%Q ∧ (x <= hi)%Q) ∧
    (lo <= 4)%Q ∧ (4 <= hi)%Q.
Proof.
  assert (mkYearlyMean 1995 (Some 4%Q) ∈ yearly_mean_rating scenario) as Hin.
  { apply list_elem_of_In. vm_compute. left. reflexivity. }
  assert (exactly_summable (ratings_where (in_year 1995) scenario) = true)
    as Hex by (vm_compute; reflexivity).
  split; [exact Hin|]. split; [exact Hex|].
  exact (yearly_mean_bounded scenario (mkYearlyMean 1995 (Some 4%Q)) Hin Hex).
Defined.

(** C8 as stated fails: for three ratings of 0.1 in one year the float64
    mean is 0.10000000000000002, above the greatest rating of that year. *)
Lemma yearly_mean_exceeds_max :
  yearly_mean_rating tenths
  = [mkYearlyMean 2000 (Some (7205759403792795 # 72057594037927936))] ∧
  ratings_where (in_year 2000) tenths = [tenth; tenth; tenth] ∧
  (tenth < 7205759403792795 # 72057594037927936)%Q ∧
  ¬ (∀ row, row ∈ yearly_mean_rating tenths →
       ∀ q, mean_rating row = Some q →
         ∃ hi, hi ∈ ratings_where (in_year (ymr_year row)) tenths ∧
               (q <= hi)%Q).
Proof.
  assert (yearly_mean_rating tenths
          = [mkYearlyMean 2000 (Some (7205759403792795 # 72057594037927936))])
    as Hrows by (vm_compute; reflexivity).
  assert (ratings_where (in_year 2000) tenths = [tenth; tenth; tenth])
    as Hrs by (vm_compute; reflexivity).
  split_and!; [exact Hrows|exact Hrs|reflexivity|].
  intros Hclaim.
  assert (mkYearlyMean 2000 (Some (7205759403792795 # 72057594037927936))
          ∈ yearly_mean_rating tenths) as Hin.
  { rewrite Hrows. left. }
  destruct (Hclaim _ Hin _ eq_refl) as (hi & Hhi & Hle).
  cbn [ymr_year] in Hhi. rewrite Hrs in Hhi.
  assert (hi = tenth) as ->.
  { apply list_elem_of_In in Hhi. cbn [In] in Hhi.
    destruct Hhi as [<-|[<-|[<-|[]]]]; reflexivity. }
  apply Qle_not_lt in Hle. apply Hle. reflexivity.
Qed.

(** C1 (top-movies threshold), as the code has it: for positive [m] and [n]
    every row of [top_movies df m n] has [rating_count >= m], there are at
    most [n] rows, and [avg_rating] is non-increasing along the rows.  The
    rows are title groups of the table; [avg_rating] is the float64 mean of
    the group's ratings and [rating_count] is the number of the group's
    rows that have a rating, which is the row count of the group when no
    rating is missing. *)
Theorem top_movies_threshold (df : table) (m n : Z) :
  0 < m → 0 < n →
  Forall (λ s, m ≤ rating_count s) (top_movies df m n) ∧
  Z.of_nat (length (top_movies df m n)) ≤ n ∧
  StronglySorted avg_desc (top_movies df m n) ∧
  Forall (λ s,
    (∃ r, r ∈ df ∧ title r = Some (ms_title s)) ∧
    avg_rating s = float_mean (ratings_where (has_title (ms_title s)) df) ∧
    is_Some (avg_rating s) ∧
    rating_count s
    = count_rows (λ r, has_title (ms_title s) r && has_rating r) df ∧
    (ratings_present df →
     rating_count s = count_rows (has_title (ms_title s)) df))
    (top_movies df m n).
Proof.
  intros Hm Hn.
  assert (∀ s, s ∈ top_movies df m n →
               s ∈ movie_stats df ∧ m ≤ rating_count s) as Hin.
  { intros s Hs%elem_of_head. rewrite elem_of_sort_values in Hs.
    apply list_elem_of_In, filter_In in Hs as [Hs Hc].
    split; [by apply list_elem_of_In|lia]. }
  assert (∀ s, s ∈ top_movies df m n → is_Some (avg_rating s)) as Hsome.
  { intros s [(_ & -> & Hc)%elem_of_movie_stats Hms]%Hin.
    apply float_mean_is_Some, ratings_where_nonempty. lia. }
  split_and!.
  - apply Forall_forall. intros s Hs. by apply Hin.
  - apply head_length. lia.
  - eapply (StronglySorted_Forall_weaken (λ s, is_Some (avg_rating s)));
      [apply avg_ge_desc|by apply Forall_forall|].
    apply head_sorted, sort_values_sorted; [apply avg_ge_total|apply avg_ge_trans].
  - apply Forall_forall. intros s Hs. pose proof (Hsome s Hs) as Hav.
    apply Hin in Hs as [(Hr & Havg & Hc)%elem_of_movie_stats _].
    split_and!; try done.
    intros Hpres. rewrite Hc. apply count_rows_ext_in.
    intros r Hr'. rewrite (Hpres r Hr'). apply andb_true_r.
Qed.

Lemma top_movies_threshold_witness :
  0 < 1 ∧ 0 < 5 ∧ ratings_present scenario ∧
  Forall (λ s, 1 ≤ rating_count s) (top_movies scenario 1 5) ∧
  Z.of_nat (length (top_movies scenario 1 5)) ≤ 5 ∧
  StronglySorted avg_desc (top_movies scenario 1 5) ∧
  Forall (λ s, rating_count s = count_rows (has_title (ms_title s)) scenario)
         (top_movies scenario 1 5).
Proof.
  assert (ratings_present scenario) as Hpres.
  { intros r Hr. apply list_elem_of_In in Hr. simpl in Hr.
    destruct Hr as [<-|[<-|[<-|[]]]]; reflexivity. }
  split; [reflexivity|]. split; [reflexivity|]. split; [exact Hpres|].
  destruct (top_movies_threshold scenario 1 5) as (H1 & H2 & H3 & H4);
    [reflexivity|reflexivity|].
  refine (conj H1 (conj H2 (conj H3 _))).
  eapply Forall_impl; [exact H4|].
  intros s (_ & _ & _ & _ & Hrows). exact (Hrows Hpres).
Defined.

(** C1 as stated fails: a title group of two rows, one of them without a
    rating, is returned with [rating_count] 1, not the row count 2. *)
Lemma top_movies_counts_ratings_not_rows :
  top_movies missing_rating_table 1 5 = [mkMovieStat "A" (Some 5%Q) 1] ∧
  count_rows (has_title "A") missing_rating_table = 2 ∧
  ¬ Forall (λ s, rating_count s
                 = count_rows (has_title (ms_title s)) missing_rating_table)
           (top_movies missing_rating_table 1 5).
Proof.
  assert (top_movies missing_rating_table 1 5 = [mkMovieStat "A" (Some 5%Q) 1])
    as Hrows by (vm_compute; reflexivity).
  split_and!; [exact Hrows|reflexivity|].
  rewrite Hrows. intros [H _]%Forall_cons. vm_compute in H. discriminate H.
Qed.

(** C5 (concrete scenario): on the three rows of [scenario] the four
    summaries are the ones the specification lists, in the listed order, and
    the source functions return them. *)
Theorem concrete_scenario :
  genre_counts scenario
  = [mkGenreCount "Animation" 2; mkGenreCount "Action" 1] ∧
  five_star_genre_counts scenario = [mkGenreCount "Animation" 1] ∧
  yearly_mean_rating scenario = [mkYearlyMean 1995 (Some 4%Q)] ∧
  top_movies scenario 1 5
  = [mkMovieStat "Toy Story" (Some (9 # 2)%Q) 2;
     mkMovieStat "Heat" (Some 3%Q) 1] ∧
  returns (plot_genre_counts 0%nat) [RatingsFrame scenario]
    (CountsFrame ["genres"; "count"]%string
       [mkGenreCount "Animation" 2; mkGenreCount "Action" 1]) ∧
  returns (plot_5star_treemap 0%nat) [RatingsFrame scenario]
    (CountsFrame ["genres"; "count"]%string [mkGenreCount "Animation" 1]) ∧
  returns (plot_mean_rating_by_year 0%nat) [RatingsFrame scenario]
    (YearlyFrame [mkYearlyMean 1995 (Some 4%Q)]) ∧
  returns (top_movies_table 0%nat 1 5) [RatingsFrame scenario]
    (StatsFrame [mkMovieStat "Toy Story" (Some (9 # 2)%Q) 2;
                 mkMovieStat "Heat" (Some 3%Q) 1]).
Proof.
  split_and!; try (vm_compute; reflexivity);
    eexists _, _; (split; [vm_compute; reflexivity|reflexivity]).
Qed.

Lemma returns_run (c : py ref) (h h' : store) (l : ref) (o : frame) :
  c h = Some (l, h') → h' !! l = Some o → returns c h o.
Proof. intros ??. by exists l, h'. Qed.

Lemma lookup_snoc2 (h : store) (f g : frame) :
  (h ++ [f; g]) !! S (length h) = Some g.
Proof. by rewrite lookup_app_r, Nat.sub_succ_l, Nat.sub_diag by lia. Qed.

Lemma lookup_snoc3 (h : store) (f g k : frame) :
  (h ++ [f; g; k]) !! S (S (length h)) = Some k.
Proof.
  rewrite lookup_app_r by lia.
  by replace (S (S (length h)) - length h)%nat with 2%nat by lia.
Qed.

Lemma lookup_app_old (h ext : store) (l : ref) o :
  h !! l = Some o → (h ++ ext) !! l = Some o.
Proof. intros H. by rewrite lookup_app_l by (by eapply lookup_lt_Some). Qed.

(** C6 (empty table): on an empty table each of the four source functions
    returns normally, and the frame it returns has no rows, whatever
    [min_ratings] and [top_n] are. *)
Theorem empty_table (h : store) (df : ref) (m n : Z) :
  h !! df = Some (RatingsFrame []) →
  returns (plot_genre_counts df) h (CountsFrame counts_columns []) ∧
  returns (plot_5star_treemap df) h (CountsFrame counts_columns []) ∧
  returns (plot_mean_rating_by_year df) h (YearlyFrame []) ∧
  returns (top_movies_table df m n) h (StatsFrame []) ∧
  genre_counts [] = [] ∧ five_star_genre_counts [] = [] ∧
  yearly_mean_rating [] = [] ∧ top_movies [] m n = [].
Proof.
  intros Hdf.
  assert (top_movies [] m n = []) as Htop by apply head_nil.
  split_and!; try done.
  - eapply returns_run; [by apply plot_genre_counts_run|apply lookup_snoc].
  - eapply returns_run; [by apply plot_5star_treemap_run|apply lookup_snoc2].
  - eapply returns_run; [by apply plot_mean_rating_by_year_run|apply lookup_snoc].
  - eapply returns_run; [by apply top_movies_table_run|].
    rewrite Htop. apply lookup_snoc3.
Qed.

Lemma empty_table_witness :
  [RatingsFrame []] !! 0%nat = Some (RatingsFrame []) ∧
  returns (plot_genre_counts 0%nat) [RatingsFrame []]
    (CountsFrame counts_columns []) ∧
  returns (top_movies_table 0%nat 50 5) [RatingsFrame []] (StatsFrame []).
Proof.
  split; [reflexivity|].
  destruct (empty_table [RatingsFrame []] 0%nat 50 5) as (H1 & _ & _ & H4 & _);
    [reflexivity|].
  exact (conj H1 H4).
Defined.

(** A source function that only appends fresh frames to the store, and whose
    returned frame depends on the table alone, can be called again with the
    same outcome. *)
Lemma repeatable_append (c : py ref) (h : store) (o : frame) :
  (∀ h0, (∃ ext, h0 = h ++ ext) →
         ∃ l ext, c h0 = Some (l, h0 ++ ext) ∧ (h0 ++ ext) !! l = Some o) →
  repeatable c h.
Proof.
  intros Hc.
  destruct (Hc h) as (l1 & ext1 & Hrun1 & Hout1);
    [exists []; by rewrite app_nil_r|].
  destruct (Hc (h ++ ext1)) as (l2 & ext2 & Hrun2 & Hout2); [by eexists|].
  exists l1, l2, ((h ++ ext1) ++ ext2), o. split_and!; [|by apply lookup_app_old|done].
  unfold twice, mbind, py_bind. by rewrite Hrun1, Hrun2.
Qed.

(** C7 (determinism): each of the four source functions, called twice in a
    row on the same table (and, for [top_movies_table], the same
    [min_ratings] and [top_n]), returns normally both times and the two
    frames returned hold the same value. *)
Theorem transforms_deterministic (h : store) (df : ref) (t : table) (m n : Z) :
  h !! df = Some (RatingsFrame t) →
  repeatable (plot_genre_counts df) h ∧
  repeatable (plot_5star_treemap df) h ∧
  repeatable (plot_mean_rating_by_year df) h ∧
  repeatable (top_movies_table df m n) h.
Proof.
  intros Hdf.
  assert (∀ h0, (∃ ext, h0 = h ++ ext) → h0 !! df = Some (RatingsFrame t)) as Hext.
  { intros h0 [ext ->]. by apply lookup_app_old. }
  split_and!.
  - apply (repeatable_append _ _ (CountsFrame counts_columns (genre_counts t))).
    intros h0 Hh0%Hext. eexists _, _.
    split; [by apply plot_genre_counts_run|apply lookup_snoc].
  - apply (repeatable_append _ _
             (CountsFrame counts_columns (five_star_genre_counts t))).
    intros h0 Hh0%Hext. eexists _, _.
    split; [by apply plot_5star_treemap_run|apply lookup_snoc2].
  - apply (repeatable_append _ _ (YearlyFrame (yearly_mean_rating t))).
    intros h0 Hh0%Hext. eexists _, _.
    split; [by apply plot_mean_rating_by_year_run|apply lookup_snoc].
  - apply (repeatable_append _ _ (StatsFrame (top_movies t m n))).
    intros h0 Hh0%Hext. eexists _, _.
    split; [by apply top_movies_table_run|apply lookup_snoc3].
Qed.

Lemma transforms_deterministic_witness :
  [RatingsFrame scenario] !! 0%nat = Some (RatingsFrame scenario) ∧
  repeatable (plot_genre_counts 0%nat) [RatingsFrame scenario] ∧
  repeatable (top_movies_table 0%nat 1 5) [RatingsFrame scenario].
Proof.
  split; [reflexivity|].
  destruct (transforms_deterministic [RatingsFrame scenario] 0%nat scenario 1 5)
    as (H1 & _ & _ & H4); [reflexivity|].
  exact (conj H1 H4).
Defined.

Lemma leaves_table_append (c : py ref) (h ext : store) (l df : ref) (t : table) :
  h !! df = Some (RatingsFrame t) →
  c h = Some (l, h ++ ext) →
  leaves_table c h df t.
Proof.
  intros Hdf Hrun. exists l, (h ++ ext).
  split_and!; [done|by apply lookup_app_old|].
  intros l' o. apply lookup_app_old.
Qed.

(** C9 (the table is not mutated): each of the four source functions returns
    normally and the object at [df] is the same table after the call as
    before it; no object that existed before the call is changed, the
    in-place renaming of columns included. *)
Theorem transforms_leave_table (h : store) (df : ref) (t : table) (m n : Z) :
  h !! df = Some (RatingsFrame t) →
  leaves_table (plot_genre_counts df) h df t ∧
  leaves_table (plot_5star_treemap df) h df t ∧
  leaves_table (plot_mean_rating_by_year df) h df t ∧
  leaves_table (top_movies_table df m n) h df t.
Proof.
  intros Hdf. split_and!; eapply leaves_table_append; try done.
  - by apply plot_genre_counts_run.
  - by apply plot_5star_treemap_run.
  - by apply plot_mean_rating_by_year_run.
  - by apply top_movies_table_run.
Qed.

Lemma transforms_leave_table_witness :
  [RatingsFrame scenario] !! 0%nat = Some (RatingsFrame scenario) ∧
  leaves_table (plot_genre_counts 0%nat) [RatingsFrame scenario] 0%nat scenario ∧
  leaves_table (plot_5star_treemap 0%nat) [RatingsFrame scenario] 0%nat scenario.
Proof.
  split; [reflexivity|].
  destruct (transforms_leave_table [RatingsFrame scenario] 0%nat scenario 1 5)
    as (H1 & H2 & _); [reflexivity|].
  exact (conj H1 H2).
Defined.

(** ** Further properties of [top_movies_table] *)

Lemma head_is_firstn {A} (n : Z) (l : list A) : ∃ k, head n l = firstn k l.
Proof. unfold head. destruct (0 <=? n); by eexists. Qed.

Lemma head_length_cases {A} (n : Z) (l : list A) :
  Z.of_nat (length (head n l))
  = if 0 <=? n then Z.min n (Z.of_nat (length l))
    else Z.max 0 (Z.of_nat (length l) + n).
Proof.
  unfold head. destruct (Z.leb_spec 0 n); rewrite length_firstn; lia.
Qed.

Lemma head_all {A} (n : Z) (l : list A) :
  Z.of_nat (length l) ≤ n → head n l = l.
Proof.
  intros Hn. unfold head. rewrite (proj2 (Z.leb_le 0 n)) by lia.
  apply firstn_all2. lia.
Qed.

(** What [head] leaves out of a sorted frame comes after what it keeps. *)
Lemma head_cut {A} (R : A → A → Prop) (n : Z) (l : list A) y :
  StronglySorted R l → y ∈ l →
  y ∈ head n l ∨ ∀ x, x ∈ head n l → R x y.
Proof.
  intros Hsorted Hy. destruct (head_is_firstn n l) as [k ->].
  rewrite <- (firstn_skipn k l) in Hsorted, Hy.
  apply elem_of_app in Hy as [Hy|Hy]; [by left|right].
  intros x Hx. by eapply StronglySorted_app_1_elem_of.
Qed.

Lemma filtered_movies_sorted (df : table) (m : Z) :
  StronglySorted (λ a b, avg_ge a b = true)
    (sort_values avg_ge (filtered_movies df m)).
Proof. apply sort_values_sorted; [apply avg_ge_total|apply avg_ge_trans]. Qed.

Lemma elem_of_filtered_movies (df : table) (m : Z) s :
  s ∈ filtered_movies df m ↔ s ∈ movie_stats df ∧ m ≤ rating_count s.
Proof.
  unfold filtered_movies. rewrite !list_elem_of_In, filter_In, Z.leb_le. done.
Qed.

Lemma top_movies_cut (df : table) (m n : Z) s :
  s ∈ filtered_movies df m →
  s ∈ top_movies df m n ∨ ∀ r, r ∈ top_movies df m n → avg_ge r s = true.
Proof.
  intros Hs. unfold top_movies.
  apply (head_cut (λ a b, avg_ge a b = true)).
  - apply filtered_movies_sorted.
  - by apply elem_of_sort_values.
Qed.

(** The ranking keeps the best: a movie that meets the threshold and is not
    in the table returned by [top_movies_table] is ranked no higher (in the
    descending order of [avg_rating], NaN last) than any movie in it. *)
Theorem top_movies_maximal (df : table) (m n : Z) (kept left_out : MovieStat) :
  kept ∈ top_movies df m n →
  left_out ∈ filtered_movies df m →
  ¬ left_out ∈ top_movies df m n →
  avg_ge kept left_out = true.
Proof.
  intros Hk Hl Hnl. destruct (top_movies_cut df m n left_out Hl) as [Hin|Hall].
  - by destruct Hnl.
  - by apply Hall.
Qed.

Lemma top_movies_maximal_witness :
  mkMovieStat "Toy Story" (Some (9 # 2)%Q) 2 ∈ top_movies scenario 1 1 ∧
  mkMovieStat "Heat" (Some 3%Q) 1 ∈ filtered_movies scenario 1 ∧
  ¬ mkMovieStat "Heat" (Some 3%Q) 1 ∈ top_movies scenario 1 1 ∧
  avg_ge (mkMovieStat "Toy Story" (Some (9 # 2)%Q) 2)
         (mkMovieStat "Heat" (Some 3%Q) 1) = true.
Proof.
  assert (mkMovieStat "Toy Story" (Some (9 # 2)%Q) 2 ∈ top_movies scenario 1 1)
    as H1 by (apply list_elem_of_In; vm_compute; left; reflexivity).
  assert (mkMovieStat "Heat" (Some 3%Q) 1 ∈ filtered_movies scenario 1)
    as H2 by (apply list_elem_of_In; vm_compute; left; reflexivity).
  assert (¬ mkMovieStat "Heat" (Some 3%Q) 1 ∈ top_movies scenario 1 1) as H3.
  { intros H. apply list_elem_of_In in H. vm_compute in H.
    destruct H as [H|[]]. discriminate H. }
  exact (conj H1 (conj H2 (conj H3 (top_movies_maximal _ _ _ _ _ H1 H2 H3)))).
Defined.

(** The size of the table returned by [top_movies_table], for every
    [top_n]: with [q] movies meeting the threshold it has [min top_n q] rows
    for a non-negative [top_n] (none for 0), and a negative [top_n] drops the
    last [-top_n] of the [q] ranked rows. *)
Theorem top_movies_length (df : table) (m n : Z) :
  Z.of_nat (length (top_movies df m n))
  = if 0 <=? n
    then Z.min n (Z.of_nat (length (filtered_movies df m)))
    else Z.max 0 (Z.of_nat (length (filtered_movies df m)) + n).
Proof.
  unfold top_movies. by rewrite head_length_cases, sort_values_length.
Qed.

(** When at most [top_n] movies meet the threshold, [top_movies_table]
    returns all of them: the rows are those of the filtered frame,
    reordered. *)
Theorem top_movies_keeps_all (df : table) (m n : Z) :
  Z.of_nat (length (filtered_movies df m)) ≤ n →
  top_movies df m n ≡ₚ filtered_movies df m.
Proof.
  intros Hn. unfold top_movies.
  rewrite head_all by (by rewrite sort_values_length).
  apply sort_values_perm.
Qed.

Lemma top_movies_keeps_all_witness :
  Z.of_nat (length (filtered_movies scenario 1)) ≤ 5 ∧
  top_movies scenario 1 5 ≡ₚ filtered_movies scenario 1.
Proof.
  assert (Z.of_nat (length (filtered_movies scenario 1)) ≤ 5) as H.
  { vm_compute. discriminate. }
  exact (conj H (top_movies_keeps_all scenario 1 5 H)).
Defined.

Lemma firstn_nil_inv {A} (k : nat) (l : list A) :
  firstn k l = [] → k ≠ 0%nat → l = [].
Proof. destruct k, l; simpl; congruence. Qed.

(** For a positive [top_n] the table returned by [top_movies_table] is empty
    exactly when no title group reaches [min_ratings] ratings. *)
Theorem top_movies_empty_iff (df : table) (m n : Z) :
  0 < n →
  top_movies df m n = [] ↔ ∀ s, s ∈ movie_stats df → rating_count s < m.
Proof.
  intros Hn. unfold top_movies, head. rewrite (proj2 (Z.leb_le 0 n)) by lia.
  split.
  - intros Hnil%firstn_nil_inv; [|lia]. intros s Hs.
    destruct (Z.lt_ge_cases (rating_count s) m) as [|Hge]; [done|].
    assert (s ∈ sort_values avg_ge (filtered_movies df m)) as Hin.
    { by rewrite elem_of_sort_values, elem_of_filtered_movies. }
    rewrite Hnil in Hin. by apply elem_of_nil in Hin.
  - intros Hall. assert (filtered_movies df m = []) as ->; [|by destruct (Z.to_nat n)].
    destruct (filtered_movies df m) as [|s l] eqn:E; [done|].
    assert (s ∈ filtered_movies df m) as Hs by (rewrite E; by left).
    apply elem_of_filtered_movies in Hs as [Hs Hc]. specialize (Hall s Hs). lia.
Qed.

Lemma top_movies_empty_iff_witness :
  0 < 5 ∧ top_movies scenario 3 5 = [].
Proof.
  split; [reflexivity|].
  apply (proj2 (top_movies_empty_iff scenario 3 5 eq_refl)).
  intros s Hs. apply list_elem_of_In in Hs. vm_compute in Hs.
  destruct Hs as [<-|[<-|[]]]; reflexivity.
Defined.

(** Raising [min_ratings] never promotes a movie past the lower threshold's
    table: a row of the table for the higher threshold is a row of the table
    for the lower one, unless that table is full ([top_n] rows) with rows all
    ranked at least as high. *)
Theorem top_movies_threshold_mono (df : table) (m1 m2 n : Z) (s : MovieStat) :
  m1 ≤ m2 → 0 ≤ n →
  s ∈ top_movies df m2 n →
  s ∈ top_movies df m1 n ∨
  (Z.of_nat (length (top_movies df m1 n)) = n ∧
   ∀ r, r ∈ top_movies df m1 n → avg_ge r s = true).
Proof.
  intros Hm Hn Hs.
  assert (s ∈ filtered_movies df m1) as Hs1.
  { apply elem_of_head in Hs. rewrite elem_of_sort_values in Hs.
    apply elem_of_filtered_movies in Hs as [? ?].
    apply elem_of_filtered_movies. split; [done|lia]. }
  destruct (Z.le_gt_cases (Z.of_nat (length (filtered_movies df m1))) n)
    as [Hle|Hgt].
  - left. unfold top_movies.
    rewrite head_all by (by rewrite sort_values_length).
    by apply elem_of_sort_values.
  - destruct (top_movies_cut df m1 n s Hs1) as [?|Hall]; [by left|right].
    split; [|done]. unfold top_movies.
    rewrite head_length_cases, sort_values_length, (proj2 (Z.leb_le 0 n)) by lia.
    lia.
Qed.

Lemma top_movies_threshold_mono_witness :
  1 ≤ 2 ∧ 0 ≤ 1 ∧
  mkMovieStat "Toy Story" (Some (9 # 2)%Q) 2 ∈ top_movies scenario 2 1 ∧
  (mkMovieStat "Toy Story" (Some (9 # 2)%Q) 2 ∈ top_movies scenario 1 1 ∨
   (Z.of_nat (length (top_movies scenario 1 1)) = 1 ∧
    ∀ r, r ∈ top_movies scenario 1 1 →
         avg_ge r (mkMovieStat "Toy Story" (Some (9 # 2)%Q) 2) = true)).
Proof.
  assert (1 ≤ 2) as H1 by discriminate.
  assert (0 ≤ 1) as H2 by discriminate.
  assert (mkMovieStat "Toy Story" (Some (9 # 2)%Q) 2 ∈ top_movies scenario 2 1)
    as H3 by (apply list_elem_of_In; vm_compute; left; reflexivity).
  exact (conj H1 (conj H2 (conj H3
           (top_movies_threshold_mono scenario 1 2 1 _ H1 H2 H3)))).
Defined.

Lemma NoDup_map_filter {A B} (f : A → B) (p : A → bool) (l : list A) :
  NoDup (map f l) → NoDup (map f (List.filter p l)).
Proof.
  induction l as [|a l IH]; simpl; [done|].
  intros [Ha Hl]%NoDup_cons. destruct (p a); simpl; [|by apply IH].
  apply NoDup_cons. split; [|by apply IH].
  intros (y & Hfy & Hy)%list_elem_of_fmap. apply Ha.
  apply list_elem_of_fmap. exists y. split; [done|].
  apply list_elem_of_In, filter_In in Hy as [Hy _]. by apply list_elem_of_In.
Qed.

Lemma NoDup_map_firstn {A B} (f : A → B) (k : nat) (l : list A) :
  NoDup (map f l) → NoDup (map f (firstn k l)).
Proof.
  rewrite <- (firstn_skipn k l) at 1. rewrite map_app.
  by intros (? & _ & _)%NoDup_app.
Qed.

Lemma movie_stats_titles (df : table) :
  map ms_title (movie_stats df) = map fst (groupby title String.leb df).
Proof.
  unfold movie_stats. rewrite map_map. done.
Qed.

(** No movie is listed twice: the titles of the table returned by
    [top_movies_table] are pairwise distinct, for every threshold and every
    [top_n]. *)
Theorem top_movies_titles_distinct (df : table) (m n : Z) :
  NoDup (map ms_title (top_movies df m n)).
Proof.
  unfold top_movies. destruct (head_is_firstn n
    (sort_values avg_ge (filtered_movies df m))) as [k ->].
  apply NoDup_map_firstn.
  rewrite (Permutation_map ms_title (sort_values_perm avg_ge _)).
  apply NoDup_map_filter. rewrite movie_stats_titles.
  apply NoDup_groupby_keys.
Qed.

Lemma count_rows_cons p r df :
  count_rows p (r :: df) = (if p r then 1 else 0) + count_rows p df.
Proof. unfold count_rows. simpl. destruct (p r); simpl; lia. Qed.

Lemma Zsum_map_zero {B} (f : B → Z) (l : list B) :
  (∀ b, f b = 0) → Zsum (map f l) = 0.
Proof. intros Hf. induction l as [|b l IH]; simpl; [done|]. rewrite Hf, IH. done. Qed.

(** Grouping loses no row with a key: over keys that are distinct and cover
    the key column, the group sizes add up to the number of keyed rows. *)
Lemma sum_count_rows_keys {K} `{EqDecision K}
    (key : rating_record → option K) (p : rating_record → bool)
    (ks : list K) (df : table) :
  NoDup ks →
  (∀ r k, r ∈ df → key r = Some k → k ∈ ks) →
  Zsum (map (λ k, count_rows (λ r, bool_decide (key r = Some k) && p r) df) ks)
  = count_rows (λ r, match key r with Some _ => p r | None => false end) df.
Proof.
  intros Hnd. induction df as [|r df IH]; intros Hcover.
  - by apply Zsum_map_zero.
  - erewrite map_ext; [|intros k; apply count_rows_cons].
    rewrite Zsum_map_add, count_rows_cons, IH
      by (intros r' k Hr'; apply Hcover; by right).
    f_equal. destruct (key r) as [k0|] eqn:Hk.
    + destruct (p r).
      * erewrite map_ext; [apply (sum_indicator ks k0 Hnd)|].
        -- apply (Hcover r); [by left|done].
        -- intros k. simpl. rewrite andb_true_r.
           destruct (decide (k0 = k)) as [->|Hne].
           ++ by rewrite bool_decide_eq_true_2.
           ++ rewrite bool_decide_eq_false_2; [done|congruence].
      * apply Zsum_map_zero. intros k. by rewrite andb_false_r.
    + apply Zsum_map_zero. intros k. by rewrite bool_decide_eq_false_2.
Qed.

(** The per-movie counts of [movie_stats] account for every rating once:
    they add up to the number of rows that have both a title and a
    rating. *)
Theorem movie_stats_total (df : table) :
  Zsum (map rating_count (movie_stats df)) = count_rows titled_rating df.
Proof.
  unfold movie_stats, groupby. rewrite !map_map. simpl.
  erewrite map_ext; [|intros k; apply count_valid_filter].
  apply (sum_count_rows_keys title has_rating).
  - rewrite sort_values_perm. apply NoDup_unique.
  - intros r k Hr Hk.
    rewrite elem_of_sort_values, elem_of_unique, elem_of_column. eauto.
Qed.

(** The five-star counts account for every five-star row with a genre once:
    they add up to the number of rows whose rating equals 5 and whose genre
    is present. *)
Theorem five_star_total (df : table) :
  Zsum (map count (five_star_genre_counts df))
  = count_rows (λ r, is_five_star r && has_genres r) df.
Proof.
  unfold five_star_genre_counts, top_ratings.
  rewrite value_counts_sum, length_dropna_genres. apply count_rows_filter.
Qed.

Lemma count_rows_perm p df1 df2 :
  df1 ≡ₚ df2 → count_rows p df1 = count_rows p df2.
Proof.
  induction 1 as [|r ?? _ IH|r1 r2 ?|??? _ IH1 _ IH2];
    rewrite ?count_rows_cons; lia.
Qed.

(** The genre summary does not depend on the order of the table's rows:
    reordering the rows gives the same genre rows with the same counts, up
    to the order of the summary (genres with equal counts may swap). *)
Theorem genre_counts_row_order (df1 df2 : table) :
  df1 ≡ₚ df2 → genre_counts df1 ≡ₚ genre_counts df2.
Proof.
  intros Hperm. unfold genre_counts.
  apply NoDup_Permutation.
  - eapply NoDup_fmap_1, NoDup_value_counts.
  - eapply NoDup_fmap_1, NoDup_value_counts.
  - intros gc. rewrite !elem_of_value_counts, !elem_of_column, !occurrences_column.
    rewrite (count_rows_perm _ _ _ Hperm).
    by setoid_rewrite Hperm.
Qed.

Lemma genre_counts_row_order_witness :
  rev scenario ≡ₚ scenario ∧
  genre_counts (rev scenario) ≡ₚ genre_counts scenario.
Proof.
  assert (rev scenario ≡ₚ scenario) as H by (symmetry; apply Permutation_rev).
  exact (conj H (genre_counts_row_order _ _ H)).
Defined.

Lemma filter_all {A} (p : A → bool) (l : list A) :
  (∀ x, x ∈ l → p x = true) → List.filter p l = l.
Proof.
  induction l as [|a l IH]; intros Hp; simpl; [done|].
  rewrite Hp by (by left). f_equal. apply IH. intros x Hx. apply Hp. by right.
Qed.

Lemma movie_stats_count_nonneg (df : table) s :
  s ∈ movie_stats df → 0 ≤ rating_count s.
Proof.
  intros (_ & _ & ->)%elem_of_movie_stats. apply count_rows_nonneg.
Qed.

(** A threshold [min_ratings <= 0] filters nothing: every title group stays,
    also one without any rating, whose [avg_rating] is NaN; and in the table
    returned, for every threshold, a row with NaN average is followed by
    such rows only. *)
Theorem nonpositive_threshold (df : table) (m n : Z) :
  m ≤ 0 →
  filtered_movies df m = movie_stats df ∧
  ∀ l1 a l2, top_movies df m n = l1 ++ a :: l2 →
             avg_rating a = None → Forall (λ b, avg_rating b = None) l2.
Proof.
  intros Hm. split.
  - unfold filtered_movies. apply filter_all. intros s Hs%movie_stats_count_nonneg.
    apply Z.leb_le. lia.
  - intros l1 a l2 Heq Ha.
    pose proof (head_sorted _ n _ (filtered_movies_sorted df m)) as Hsorted.
    fold (top_movies df m n) in Hsorted. rewrite Heq in Hsorted.
    apply StronglySorted_app_1_r, StronglySorted_cons in Hsorted as [Hall _].
    eapply Forall_impl; [exact Hall|]. intros b. unfold avg_ge. rewrite Ha.
    by destruct (avg_rating b).
Qed.

Lemma nonpositive_threshold_witness :
  0 ≤ 0 ∧
  filtered_movies [mkRow (Some "A") None None None;
                   mkRow (Some "B") None (Some 5%Q) None]%string 0
  = [mkMovieStat "A" None 0; mkMovieStat "B" (Some 5%Q) 1] ∧
  top_movies [mkRow (Some "A") None None None;
              mkRow (Some "B") None (Some 5%Q) None]%string 0 5
  = [mkMovieStat "B" (Some 5%Q) 1; mkMovieStat "A" None 0].
Proof.
  assert (0 ≤ 0) as H0 by discriminate.
  destruct (nonpositive_threshold
              [mkRow (Some "A") None None None;
               mkRow (Some "B") None (Some 5%Q) None]%string 0 5 H0)
    as [Hfilter _].
  split; [exact H0|]. split; [rewrite Hfilter|]; reflexivity.
Defined.

(** ** [main] *)

Lemma py_bind_run {A B} (c : py A) (k : A → py B) (h h' : store) (x : A) :
  c h = Some (x, h') → (c ≫= k) h = k x h'.
Proof. intros Hc. unfold mbind, py_bind. by rewrite Hc. Qed.

Lemma reset_index_drop_run (h : store) (l : ref) (ms : list MovieStat) :
  h !! l = Some (StatsFrame ms) →
  reset_index_drop l h = Some (length h, h ++ [StatsFrame ms]).
Proof.
  intros Hl. unfold reset_index_drop, mbind, py_bind, stats_of. by rewrite Hl.
Qed.

(** [main] composes the four functions on one shared table: whenever [df]
    refers to a table it runs to the end without an exception, the five
    frames it displays are, in order, the genre counts, the five-star genre
    counts, the yearly means and the top-5 tables for the thresholds 50 and
    150 of that same table, and the table and every other object that
    existed before are unchanged at the end. *)
Theorem main_displays (h : store) (df : ref) (t : table) :
  h !! df = Some (RatingsFrame t) →
  ∃ ls h',
    main df h = Some (ls, h') ∧
    frames_at h' ls
    = [Some (CountsFrame counts_columns (genre_counts t));
       Some (CountsFrame counts_columns (five_star_genre_counts t));
       Some (YearlyFrame (yearly_mean_rating t));
       Some (StatsFrame (top_movies t 50 5));
       Some (StatsFrame (top_movies t 150 5))] ∧
    h' !! df = Some (RatingsFrame t) ∧
    ∀ l o, h !! l = Some o → h' !! l = Some o.
Proof.
  intros Hdf. unfold main.
  erewrite py_bind_run
    by (apply plot_genre_counts_run; eauto 10 using lookup_app_old).
  erewrite py_bind_run
    by (apply plot_5star_treemap_run; eauto 10 using lookup_app_old).
  erewrite py_bind_run
    by (apply plot_mean_rating_by_year_run; eauto 10 using lookup_app_old).
  erewrite py_bind_run
    by (apply top_movies_table_run; eauto 10 using lookup_app_old).
  erewrite py_bind_run by (apply reset_index_drop_run, lookup_snoc3).
  erewrite py_bind_run
    by (apply top_movies_table_run; eauto 10 using lookup_app_old).
  erewrite py_bind_run by (apply reset_index_drop_run, lookup_snoc3).
  eexists _, _. split; [reflexivity|].
  split_and!.
  - unfold frames_at. cbn [map].
    repeat (f_equal;
            [repeat first [apply lookup_snoc | apply lookup_snoc2
                          | apply lookup_snoc3 | apply lookup_app_old]|]).
    f_equal. apply lookup_snoc.
  - eauto 10 using lookup_app_old.
  - intros l o Hl. eauto 10 using lookup_app_old.
Qed.

Lemma main_displays_witness :
  [RatingsFrame scenario] !! 0%nat = Some (RatingsFrame scenario) ∧
  ∃ ls h',
    main 0%nat [RatingsFrame scenario] = Some (ls, h') ∧
    frames_at h' ls
    = [Some (CountsFrame counts_columns (genre_counts scenario));
       Some (CountsFrame counts_columns (five_star_genre_counts scenario));
       Some (YearlyFrame (yearly_mean_rating scenario));
       Some (StatsFrame (top_movies scenario 50 5));
       Some (StatsFrame (top_movies scenario 150 5))] ∧
    [RatingsFrame scenario] !! 0%nat = Some (RatingsFrame scenario).
Proof.
  split; [reflexivity|].
  destruct (main_displays [RatingsFrame scenario] 0%nat scenario eq_refl)
    as (ls & h' & Hrun & Hframes & _ & _).
  exists ls, h'. split; [exact Hrun|]. split; [exact Hframes|reflexivity].
Defined.

(** ** Further properties of [plot_mean_rating_by_year] *)

Lemma unique_perm {K} `{EqDecision K} (s1 s2 : list K) :
  s1 ≡ₚ s2 → unique s1 ≡ₚ unique s2.
Proof.
  intros Hperm. apply NoDup_Permutation; [apply NoDup_unique..|].
  intros x. rewrite !elem_of_unique. by rewrite Hperm.
Qed.

Lemma year_column_perm (df1 df2 : table) :
  df1 ≡ₚ df2 → dropna (map year df1) ≡ₚ dropna (map year df2).
Proof.
  unfold dropna. induction 1 as [|r ?? _ IH|r1 r2 ?|??? _ IH1 _ IH2]; simpl.
  - done.
  - destruct (year r); simpl; by rewrite IH.
  - destruct (year r1), (year r2); simpl; try done. apply Permutation_swap.
  - by rewrite IH1.
Qed.

(** The years on the axis of the yearly chart do not depend on the order of
    the table's rows: reordering the rows gives the same years in the same
    (ascending) order. *)
Theorem yearly_years_row_order (df1 df2 : table) :
  df1 ≡ₚ df2 →
  map ymr_year (yearly_mean_rating df1) = map ymr_year (yearly_mean_rating df2).
Proof.
  intros Hperm. rewrite !yearly_mean_rating_years, !groupby_keys.
  apply (StronglySorted_unique Z.le).
  - eapply StronglySorted_weaken;
      [|apply (sort_values_sorted Z.leb Zleb_total Zleb_trans)].
    intros a b. apply Z.leb_le.
  - eapply StronglySorted_weaken;
      [|apply (sort_values_sorted Z.leb Zleb_total Zleb_trans)].
    intros a b. apply Z.leb_le.
  - rewrite !sort_values_perm. by apply unique_perm, year_column_perm.
Qed.

Lemma yearly_years_row_order_witness :
  rev scenario ≡ₚ scenario ∧
  map ymr_year (yearly_mean_rating (rev scenario))
  = map ymr_year (yearly_mean_rating scenario).
Proof.
  assert (rev scenario ≡ₚ scenario) as H by (symmetry; apply Permutation_rev).
  exact (conj H (yearly_years_row_order _ _ H)).
Defined.
